(** * lstests/core/helper.py: text, header and JSON-trimming helpers

    A shallow embedding of the helper module of the launcher-service test
    library, and the properties its description states about it.

    - Python [str] values are lists of Unicode code points, so that [len],
      slicing and [ljust] count characters exactly as Python does.
    - Python integers are [Z].
    - Mutable containers ([dict], [list]) live in a store addressed by
      location; a value is either an immutable scalar or a reference into
      the store.  [trim] mutates the store, [copy.deepcopy] extends it.
    - A raised exception is the [Raise] result.  Recursive store walks take
      a recursion budget and yield [None] when it is exhausted (Python's
      [RecursionError]). *)

From Stdlib Require Import ZArith NArith Lia String Ascii.
From stdpp Require Import base option list gmap.

Set Warnings "-register-all".
Local Open Scope Z_scope.

(** ** Python strings *)

Module PyStr.

Definition char := N.
Definition str := list char.

(** An ASCII literal as a Python string. *)
Definition lit (s : string) : str :=
  (λ a, N_of_ascii a) <$> list_ascii_of_string s.

(** [len(s)] *)
Definition len (s : str) : Z := Z.of_nat (length s).

(** A slice bound, as Python normalises it against the length [n]:
    negative bounds count from the end, and everything is clamped. *)
Definition slice_index (n i : Z) : Z :=
  if i <? 0 then Z.max 0 (n + i) else Z.min i n.

(** [s[:stop]] *)
Definition slice_to (s : str) (stop : Z) : str :=
  take (Z.to_nat (slice_index (len s) stop)) s.

(** [s[start:]] *)
Definition slice_from (s : str) (start : Z) : str :=
  drop (Z.to_nat (slice_index (len s) start)) s.

(** [s * n] *)
Definition str_mul (s : str) (n : Z) : str :=
  concat (replicate (Z.to_nat n) s).

Definition is_lower (c : char) : bool := ((97 <=? c) && (c <=? 122))%N.
Definition is_upper (c : char) : bool := ((65 <=? c) && (c <=? 90))%N.
Definition is_cased (c : char) : bool := is_lower c || is_upper c.
Definition is_digit (c : char) : bool := ((48 <=? c) && (c <=? 57))%N.

(** Case mapping of one character.  Letters of the ASCII range are mapped;
    every other code point is kept as it is. *)
Definition upper_char (c : char) : char := if is_lower c then (c - 32)%N else c.
Definition lower_char (c : char) : char := if is_upper c then (c + 32)%N else c.

(** [s.upper()] *)
Definition upper (s : str) : str := upper_char <$> s.

(** [s.title()]: a cased character is upper-cased when the character before
    it is not cased, lower-cased otherwise. *)
Fixpoint title_from (previous_is_cased : bool) (s : str) : str :=
  match s with
  | [] => []
  | c :: rest =>
      (if previous_is_cased then lower_char c else upper_char c)
        :: title_from (is_cased c) rest
  end.

Definition title (s : str) : str := title_from false s.

End PyStr.

Import PyStr.

(** ** Exceptions and results *)

Inductive exn :=
  | RuntimeError (msg : str)
  | TypeError (msg : str)
  | KeyError (key : str)
  | JSONDecodeError (msg : str)
  | RecursionError.

Inductive result (A : Type) :=
  | Ok (a : A)
  | Raise (e : exn).

Arguments Ok {A} a.
Arguments Raise {A} e.

Definition bind_result {A B} (r : result A) (k : A → result B) : result B :=
  match r with
  | Ok a => k a
  | Raise e => Raise e
  end.

Notation "x ←r e1 ;; e2" := (bind_result e1 (λ x, e2))
  (at level 100, e1 at next level, right associativity).

(** ** Module constants *)

Definition HORIZONTAL_BAR : str := [9472%N].
Definition HORIZONTAL_DASH : str := [9135%N].
Definition VERTICAL_BAR : str := [9474%N].

(** ** vislen

    [re.compile(r"\033\[[0-9]+(;[0-9]+)?m").sub("", s)]: every leftmost,
    non-overlapping colour code is removed.  Both digit runs are greedy, and
    since the character after a run is never a digit there is nothing to
    backtrack into. *)

Fixpoint skip_digits (s : str) : str :=
  match s with
  | c :: rest => if is_digit c then skip_digits rest else s
  | [] => []
  end.

(** [[0-9]+] at the head of [s]: what follows the run. *)
Definition digits1 (s : str) : option str :=
  match s with
  | c :: rest => if is_digit c then Some (skip_digits rest) else None
  | [] => None
  end.

(** The colour-code pattern at the head of [s]: what follows the match. *)
Definition match_color (s : str) : option str :=
  match s with
  | 27%N :: 91%N :: rest =>
      match digits1 rest with
      | Some (109%N :: rest') => Some rest'
      | Some (59%N :: rest') =>
          match digits1 rest' with
          | Some (109%N :: rest'') => Some rest''
          | _ => None
          end
      | _ => None
      end
  | _ => None
  end.

(** [skip] counts the characters of the current match still to be dropped. *)
Fixpoint strip_color (skip : nat) (s : str) : str :=
  match s with
  | [] => []
  | c :: rest =>
      match skip with
      | S k => strip_color k rest
      | O =>
          match match_color s with
          | Some after => strip_color (length s - length after - 1) rest
          | None => c :: strip_color 0 rest
          end
      end
  end.

Definition vislen (s : str) : Z := len (strip_color 0 s).

(** ** squeeze *)

Definition squeeze (s : str) (maxlen : Z) (tail : Z) : str :=
  if len s <=? maxlen then s
  else slice_to s (maxlen - tail - 2) ++ lit ".."
         ++ (if tail =? 0 then [] else slice_from s (- tail)).

(** ** pad *)

(** [s.ljust(width, fillchar)] *)
Definition ljust (s : str) (width : Z) (fillchar : str) : result str :=
  match fillchar with
  | [c] => Ok (s ++ replicate (Z.to_nat (width - len s)) c)
  | _ => Raise (TypeError (lit "The fill character must be exactly one character long"))
  end.

Definition pad (text : str) (total : Z) (left : Z) (char sep : str)
    (textlen : option Z) : result str :=
  let textlen := match textlen with None => vislen text | Some n => n end in
  let offset := len text - textlen in
  ljust (str_mul char left ++ sep ++ text ++ sep) (total + offset) char.

(** ** Headers

    [color] and [logger] are sibling modules of the package; what this
    module uses of them is taken as a parameter. *)

Section Headers.

(** [color.black_on_cyan] *)
Variable black_on_cyan : str → str.
(** [str(logger.LogLevel(level))], which may raise. *)
Variable log_level_str : str → result str.

(** A call of [pad] by keyword.  [total] has no default: a call that
    does not bind it raises before the body runs. *)
Definition call_pad (text : str) (total : option Z) (left : Z)
    (char sep : str) (textlen : option Z) : result str :=
  match total with
  | Some t => pad text t left char sep textlen
  | None =>
      Raise (TypeError (lit "pad() missing 1 required positional argument: 'total'"))
  end.

Definition invalid_header_level (level : str) : str :=
  lit "Invalid header level " ++ [34%N] ++ level ++ [34%N].

Definition format_header (header level : str) : result str :=
  let upper := upper level in
  if decide (upper = lit "info") then
    Ok (lit ">>> " ++ title header)
  else if decide (upper = lit "debug") then
    call_pad (black_on_cyan header) None 0 (lit "-") [] None
  else if decide (upper = lit "trace") then
    call_pad header None 0 HORIZONTAL_DASH [] None
  else Raise (RuntimeError (invalid_header_level level)).

Definition make_header (header level : str) : result str :=
  level ←r log_level_str level;;
  if decide (level = lit "info") then
    Ok (lit ">>> " ++ title header)
  else if decide (level = lit "debug") then
    call_pad (black_on_cyan header) (Some 100) 20 (lit "-") [] None
  else if decide (level = lit "trace") then
    call_pad header (Some 100) 20 HORIZONTAL_DASH [] None
  else Ok header.

End Headers.

(** ** Python values and the store *)

Abbreviation loc := nat (only parsing).

(** A value is an immutable scalar or a reference to a container. *)
Inductive val :=
  | VNone
  | VBool (b : bool)
  | VInt (n : Z)
  | VFloat (bits : Z)
  | VStr (s : str)
  | VRef (l : loc).

(** A [dict] keeps its keys in insertion order; its keys are distinct. *)
Inductive obj :=
  | ODict (items : list (str * val))
  | OList (items : list val).

Abbreviation store := (list obj) (only parsing).

(** [isinstance(v, (list, dict))] *)
Definition is_container (v : val) : bool :=
  match v with VRef _ => true | _ => false end.

Definition is_none (v : val) : bool :=
  match v with VNone => true | _ => false end.

Definition obj_values (o : obj) : list val :=
  match o with
  | ODict items => items.*2
  | OList items => items
  end.

(** [d[key]] *)
Fixpoint dict_get {V} (items : list (str * V)) (key : str) : option V :=
  match items with
  | [] => None
  | (k, v) :: rest => if decide (k = key) then Some v else dict_get rest key
  end.

(** [d[key] = v]: an existing key keeps its place. *)
Fixpoint dict_set {V} (items : list (str * V)) (key : str) (v : V)
    : list (str * V) :=
  match items with
  | [] => [(key, v)]
  | (k, w) :: rest =>
      if decide (k = key) then (k, v) :: rest
      else (k, w) :: dict_set rest key v
  end.

(** ** override *)

(** [for x in xs: if x is not None: return x] and then [return None]. *)
Fixpoint first_not_none (xs : list val) : val :=
  match xs with
  | [] => VNone
  | x :: rest => if is_none x then first_not_none rest else x
  end.

Definition override (args : list val) : val :=
  first_not_none (reverse args).

(** ** trim

    A [for] loop over [xs] whose body may fail. *)
Fixpoint for_each {S A} (body : S → A → option S) (xs : list A) (s : S)
    : option S :=
  match xs with
  | [] => Some s
  | x :: rest =>
      match body s x with
      | Some s' => for_each body rest s'
      | None => None
      end
  end.

(** One turn of [for key in data] on the dict at [l].  [data[key]] is read
    from the store as it is at that turn. *)
Definition trim_dict_key (trim : store → val → option store) (maxlen : Z)
    (l : loc) (h : store) (key : str) : option store :=
  match h !! l with
  | Some (ODict items) =>
      match dict_get items key with
      | Some v =>
          if is_container v then trim h v
          else
            match v with
            | VStr s =>
                if maxlen <? len s
                then Some (<[l := ODict (dict_set items key (VStr (squeeze s maxlen 3)))]> h)
                else Some h
            | _ => Some h
            end
      | None => None
      end
  | _ => None
  end.

(** One turn of [for item in data] on the list at [l]: the state is the
    store together with the local variable [item].  The assignment
    [item = squeeze(...)] rebinds the local variable only. *)
Definition trim_list_item (trim : store → val → option store) (maxlen : Z)
    (l : loc) (st : store * val) (i : nat) : option (store * val) :=
  let h := st.1 in
  match h !! l with
  | Some (OList items) =>
      match items !! i with
      | Some item =>
          if is_container item then h' ← trim h item; Some (h', item)
          else
            match item with
            | VStr s =>
                if maxlen <? len s
                then Some (h, VStr (squeeze s maxlen 3))
                else Some (h, item)
            | _ => Some (h, item)
            end
      | None => Some st
      end
  | _ => None
  end.

Fixpoint trim (fuel : nat) (maxlen : Z) (h : store) (data : val)
    : option store :=
  match fuel with
  | O => None
  | S n =>
      match data with
      | VRef l =>
          match h !! l with
          | Some (ODict items) =>
              for_each (trim_dict_key (trim n maxlen) maxlen l) items.*1 h
          | Some (OList items) =>
              fst <$> for_each (trim_list_item (trim n maxlen) maxlen l)
                        (seq 0 (length items)) (h, VNone)
          | None => None
          end
      | _ => Some h
      end
  end.

(** ** copy.deepcopy

    [memo] maps a container already met to its copy.  A copy is created
    empty, entered into [memo], and then filled. *)

Definition list_append (h : store) (y : loc) (v : val) : option store :=
  match h !! y with
  | Some (OList items) => Some (<[y := OList (items ++ [v])]> h)
  | _ => None
  end.

Definition dict_store (h : store) (y : loc) (key : str) (v : val) : option store :=
  match h !! y with
  | Some (ODict items) => Some (<[y := ODict (dict_set items key v)]> h)
  | _ => None
  end.

Abbreviation memo_t := (gmap loc loc) (only parsing).

Definition copy_list_item (deepcopy : memo_t → store → val → option (memo_t * store * val))
    (y : loc) (st : memo_t * store) (a : val) : option (memo_t * store) :=
  '(memo, h, a') ← deepcopy st.1 st.2 a;
  h' ← list_append h y a';
  Some (memo, h').

Definition copy_dict_item (deepcopy : memo_t → store → val → option (memo_t * store * val))
    (y : loc) (st : memo_t * store) (kv : str * val) : option (memo_t * store) :=
  '(memo, h, v') ← deepcopy st.1 st.2 kv.2;
  h' ← dict_store h y kv.1 v';
  Some (memo, h').

Fixpoint deepcopy (fuel : nat) (memo : memo_t) (h : store) (x : val)
    : option (memo_t * store * val) :=
  match fuel with
  | O => None
  | S n =>
      match x with
      | VRef l =>
          match memo !! l with
          | Some y => Some (memo, h, VRef y)
          | None =>
              let y := length h in
              match h !! l with
              | Some (OList items) =>
                  st ← for_each (copy_list_item (deepcopy n) y) items
                         (<[l := y]> memo, h ++ [OList []]);
                  Some (st.1, st.2, VRef y)
              | Some (ODict items) =>
                  st ← for_each (copy_dict_item (deepcopy n) y) items
                         (<[l := y]> memo, h ++ [ODict []]);
                  Some (st.1, st.2, VRef y)
              | None => None
              end
          end
      | _ => Some (memo, h, x)
      end
  end.

(** ** abridge *)

Definition abridge (fuel : nat) (h : store) (data : val) (maxlen : Z)
    : option (store * val) :=
  '(_, h1, clone) ← deepcopy fuel ∅ h data;
  h2 ← trim fuel maxlen h1 clone;
  Some (h2, clone).

(** ** JSON documents

    What [json.loads] yields and [json.dumps] consumes, as a tree. *)

Inductive json :=
  | JNull
  | JBool (b : bool)
  | JInt (n : Z)
  | JFloat (bits : Z)
  | JStr (s : str)
  | JList (items : list json)
  | JDict (items : list (str * json)).

(** Threading the store through the elements of a list. *)
Fixpoint alloc_all {A} (f : A → store → store * val) (ts : list A)
    (h : store) : store * list val :=
  match ts with
  | [] => (h, [])
  | t :: rest =>
      let '(h1, v) := f t h in
      let '(h2, vs) := alloc_all f rest h1 in
      (h2, v :: vs)
  end.

(** The objects [json.loads] creates for a document: each container is a
    new object of the store. *)
Fixpoint alloc (t : json) (h : store) : store * val :=
  match t with
  | JNull => (h, VNone)
  | JBool b => (h, VBool b)
  | JInt n => (h, VInt n)
  | JFloat bits => (h, VFloat bits)
  | JStr s => (h, VStr s)
  | JList items =>
      let '(h', vs) := alloc_all alloc items h in
      (h' ++ [OList vs], VRef (length h'))
  | JDict items =>
      let '(h', vs) := alloc_all (λ kv, alloc kv.2) items h in
      (h' ++ [ODict (zip items.*1 vs)], VRef (length h'))
  end.

(** The document [json.dumps] sees when it walks a value. *)
Fixpoint read (fuel : nat) (h : store) (v : val) : option json :=
  match fuel with
  | O => None
  | S n =>
      match v with
      | VNone => Some JNull
      | VBool b => Some (JBool b)
      | VInt k => Some (JInt k)
      | VFloat bits => Some (JFloat bits)
      | VStr s => Some (JStr s)
      | VRef l =>
          match h !! l with
          | Some (OList items) => JList <$> mapM (read n h) items
          | Some (ODict items) =>
              JDict <$> mapM (λ kv, pair kv.1 <$> read n h kv.2) items
          | None => None
          end
      end
  end.

Fixpoint depth (t : json) : nat :=
  match t with
  | JList items => S (foldr (λ t d, Nat.max (depth t) d) O items)
  | JDict items => S (foldr (λ kv d, Nat.max (depth kv.2) d) O items)
  | _ => O
  end.

(** A walk that ran out of recursion budget. *)
Definition budget {A} (o : option A) : result A :=
  match o with
  | Some a => Ok a
  | None => Raise RecursionError
  end.

(** [parsed[key]] for a string [key]. *)
Definition getitem (parsed : json) (key : str) : result json :=
  match parsed with
  | JDict items =>
      match dict_get items key with
      | Some v => Ok v
      | None => Raise (KeyError key)
      end
  | JList _ => Raise (TypeError (lit "list indices must be integers or slices, not str"))
  | JStr _ => Raise (TypeError (lit "string indices must be integers"))
  | _ => Raise (TypeError (lit "object is not subscriptable"))
  end.

(** ** extract and format_json

    [json.loads] and [json.dumps] belong to the standard library and are
    taken as parameters. *)

Section Json.

Variable json_loads : str → result json.
Variable json_dumps : json → str.

(** [requests.models.Response], of which only [text] is read. *)
Record Response := { text : str }.

Definition extract (resp : Response) (key : str) (fallback : json)
    : result json :=
  match (parsed ←r json_loads (text resp);; getitem parsed key) with
  | Raise (KeyError _) => Ok fallback
  | r => r
  end.

Definition format_json (fuel : nat) (text : str) (maxlen : Z) : result str :=
  parsed ←r json_loads text;;
  let '(h, data) := alloc parsed [] in
  h' ←r (if maxlen =? 0 then Ok h else budget (trim fuel 100 h data));;
  t ←r budget (read fuel h' data);;
  Ok (json_dumps t).

End Json.

(** ** Vocabulary of the properties *)

(** The containers below [v] nest at most [n] deep: in particular no
    container below [v] contains itself. *)
Fixpoint bounded (n : nat) (h : store) (v : val) : Prop :=
  match v with
  | VRef l =>
      match n with
      | O => False
      | S k =>
          match h !! l with
          | Some o => Forall (bounded k h) (obj_values o)
          | None => False
          end
      end
  | _ => True
  end.

(** The container at [l'] is [v] or lies below it. *)
Inductive reach (h : store) : val → loc → Prop :=
  | reach_here l : reach h (VRef l) l
  | reach_step l o v l' :
      h !! l = Some o → v ∈ obj_values o → reach h v l' →
      reach h (VRef l) l'.

(** What [trim] may do to the value of a dict: leave it, or put a string in
    the place of an over-long string. *)
Definition slot_ok (maxlen : Z) (v v' : val) : Prop :=
  v' = v ∨ ∃ s s', v = VStr s ∧ maxlen < len s ∧ v' = VStr s'.

Definition obj_ok (maxlen : Z) (o o' : obj) : Prop :=
  match o, o' with
  | OList items, OList items' => items' = items
  | ODict items, ODict items' =>
      Forall2 (λ kv kv', kv'.1 = kv.1 ∧ slot_ok maxlen kv.2 kv'.2) items items'
  | _, _ => False
  end.

Definition store_ok (maxlen : Z) (h h' : store) : Prop :=
  Forall2 (obj_ok maxlen) h h'.

(** The value [trim] leaves under a key of a dict. *)
Definition trim_value (maxlen : Z) (v : val) : val :=
  match v with
  | VStr s => if maxlen <? len s then VStr (squeeze s maxlen 3) else v
  | _ => v
  end.

Definition trim_values (maxlen : Z) (items : list (str * val))
    : list (str * val) :=
  (λ kv, (kv.1, trim_value maxlen kv.2)) <$> items.

(** One turn of the loop of [trim] over a dict, on the value [kv.2] that
    was under the key when the loop began. *)
Definition trim_entry (trim : store → val → option store) (maxlen : Z)
    (l : loc) (h : store) (kv : str * val) : option store :=
  if is_container kv.2 then trim h kv.2
  else
    match kv.2 with
    | VStr s =>
        if maxlen <? len s
        then dict_store h l kv.1 (VStr (squeeze s maxlen 3))
        else Some h
    | _ => Some h
    end.

(** One turn of the loop of [trim] over a list, on the element that was in
    the list when the loop began. *)
Definition trim_element (trim : store → val → option store)
    (h : store) (item : val) : option store :=
  if is_container item then trim h item else Some h.

(** [v'] is [v] with every reference taken through the memo [m]. *)
Definition renamed (m : gmap loc loc) (v v' : val) : Prop :=
  match v with
  | VRef x => ∃ y, m !! x = Some y ∧ v' = VRef y
  | _ => v' = v
  end.

(** [o'] is a copy of [o]: the same kind of container, the same keys, and
    the values of [o] taken through [m]. *)
Definition copy_of (m : gmap loc loc) (o o' : obj) : Prop :=
  match o, o' with
  | OList xs, OList ys => Forall2 (renamed m) xs ys
  | ODict xs, ODict ys =>
      Forall2 (λ kv kv', kv'.1 = kv.1 ∧ renamed m kv.2 kv'.2) xs ys
  | _, _ => False
  end.

(** The keys of a dict are distinct. *)
Definition dicts_wf (h : store) : Prop :=
  ∀ l items, h !! l = Some (ODict items) → NoDup items.*1.

(** The state of [copy.deepcopy] of a part of the store [h0]: [h0] is still
    there, the copies are new objects, no two originals share a copy, and
    an original that is not in [pending] has been copied in full. *)
Record copy_inv (h0 : store) (pending : list loc) (m : gmap loc loc)
    (h : store) : Prop := {
  ci_prefix : h0 `prefix_of` h;
  ci_range : ∀ x y, m !! x = Some y → (length h0 ≤ y < length h)%nat;
  ci_inj : ∀ x1 x2 y, m !! x1 = Some y → m !! x2 = Some y → x1 = x2;
  ci_done : ∀ x y, m !! x = Some y → x ∉ pending →
            ∃ o o', h0 !! x = Some o ∧ h !! y = Some o' ∧ copy_of m o o'
}.

(** What a call of [deepcopy] with budget for [n] levels achieves. *)
Definition copy_rec_spec (h0 : store) (n : nat)
    (rec : gmap loc loc → store → val → option (gmap loc loc * store * val))
    : Prop :=
  ∀ pending m h v,
    copy_inv h0 pending m h → bounded n h0 v →
    ∃ m' h' v', rec m h v = Some (m', h', v')
      ∧ copy_inv h0 pending m' h' ∧ m ⊆ m' ∧ h `prefix_of` h'
      ∧ renamed m' v v'.

(** [alloc] extends the store, and the value it returns reads back as the
    document, in any extension of the store. *)
Definition alloc_ok (t : json) : Prop :=
  ∀ h, h `prefix_of` (alloc t h).1
     ∧ ∀ h' n, (alloc t h).1 `prefix_of` h' → (depth t ≤ n)%nat →
         read (S n) h' (alloc t h).2 = Some t ∧ bounded n h' (alloc t h).2.

(** ** fetch

    [dict((k, data[k]) for k in keys)]: the pairs are produced in the order
    of [keys], the first key that [data] lacks raises [KeyError], and the
    pairs are entered into a new dict one after the other. *)

Fixpoint fetch_pairs {V} (data : list (str * V)) (keys : list str)
    : result (list (str * V)) :=
  match keys with
  | [] => Ok []
  | k :: rest =>
      match dict_get data k with
      | Some v => pairs ←r fetch_pairs data rest;; Ok ((k, v) :: pairs)
      | None => Raise (KeyError k)
      end
  end.

(** [dict(pairs)] *)
Definition dict_of_pairs {V} (pairs : list (str * V)) : list (str * V) :=
  foldl (λ d kv, dict_set d kv.1 kv.2) [] pairs.

Definition fetch {V} (data : list (str * V)) (keys : list str)
    : result (list (str * V)) :=
  pairs ←r fetch_pairs data keys;; Ok (dict_of_pairs pairs).

(** ** optional and plural *)

Definition optional (x y : val) : val :=
  if is_none y then VNone else x.

Definition plural (word : str) (count : Z) (suffix : str) : str :=
  if 1 <? count then word ++ suffix else word.

(** ** get_transaction_id *)

Section Transaction.

Variable json_loads : str → result json.

(** The bare [return] of the handler returns [None]. *)
Definition get_transaction_id (response : Response) : result json :=
  match (parsed ←r json_loads (text response);;
         getitem parsed (lit "transaction_id")) with
  | Raise (KeyError _) => Ok JNull
  | r => r
  end.

End Transaction.

(** ** Vocabulary of the further properties *)


(** A run of one or more digits. *)
Definition is_number (ds : str) : Prop :=
  ds ≠ [] ∧ Forall (λ c, is_digit c = true) ds.

(** The colour code [ESC [ a m], or [ESC [ a ; b m]. *)
Definition color_code (a : str) (b : option str) : str :=
  [27%N; 91%N] ++ a
    ++ match b with Some b => 59%N :: b | None => [] end ++ [109%N].

(** [match_color], with the characters compared one by one. *)
Definition match_color_tests (s : str) : option str :=
  match s with
  | c1 :: c2 :: rest =>
      if ((c1 =? 27) && (c2 =? 91))%N then
        match digits1 rest with
        | Some (c3 :: rest') =>
            if (c3 =? 109)%N then Some rest'
            else if (c3 =? 59)%N then
              match digits1 rest' with
              | Some (c4 :: rest'') =>
                  if (c4 =? 109)%N then Some rest'' else None
              | _ => None
              end
            else None
        | _ => None
        end
      else None
  | _ => None
  end.

(** What [trim] does to the value of a dict when [maxlen] is at least 5: it
    leaves it, or puts a string that fits in the place of one that did
    not. *)
Definition slot_cut (maxlen : Z) (v v' : val) : Prop :=
  v' = v ∨ ∃ s s', v = VStr s ∧ maxlen < len s ∧ v' = VStr s' ∧ len s' ≤ maxlen.

Definition obj_cut (maxlen : Z) (o o' : obj) : Prop :=
  match o, o' with
  | OList items, OList items' => items' = items
  | ODict items, ODict items' =>
      Forall2 (λ kv kv', kv'.1 = kv.1 ∧ slot_cut maxlen kv.2 kv'.2) items items'
  | _, _ => False
  end.

Definition store_cut (maxlen : Z) (h h' : store) : Prop :=
  Forall2 (obj_cut maxlen) h h'.

(** No string value of a dict at or below [v] is longer than [maxlen]. *)
Definition trimmed (maxlen : Z) (h : store) (v : val) : Prop :=
  ∀ l items s, reach h v l → h !! l = Some (ODict items) →
    VStr s ∈ items.*2 → len s ≤ maxlen.

(** The keys of every dict at or below [v] are distinct. *)
Definition dicts_wf_below (h : store) (v : val) : Prop :=
  ∀ l items, reach h v l → h !! l = Some (ODict items) → NoDup items.*1.

(** No string value of an object of the document, at any depth, is longer
    than [maxlen]. *)
Fixpoint json_short (maxlen : Z) (t : json) : Prop :=
  match t with
  | JList items => foldr (λ t P, json_short maxlen t ∧ P) True items
  | JDict items =>
      foldr (λ kv P,
               match kv.2 with JStr s => len s ≤ maxlen | _ => True end
               ∧ json_short maxlen kv.2 ∧ P) True items
  | _ => True
  end.

(** Case analysis on a character, down to the seven low bits. *)
Ltac split_char c :=
  destruct c as [|c]; [|do 7 (try destruct c as [c|c|])].

(** * Properties *)

(** ** Strings *)

Lemma len_app (a b : str) : len (a ++ b) = len a + len b.
Proof. unfold len. rewrite length_app. lia. Qed.

Lemma len_nonneg (s : str) : 0 ≤ len s.
Proof. unfold len. lia. Qed.

Lemma upper_char_not_lower (c : char) : is_lower (upper_char c) = false.
Proof.
  unfold upper_char. destruct (is_lower c) eqn:E; [|done].
  unfold is_lower in *.
  apply andb_true_iff in E as [E1 E2].
  apply N.leb_le in E1, E2.
  apply andb_false_iff. left. apply N.leb_gt. lia.
Qed.

Lemma upper_not_lower (s : str) : Forall (λ c, is_lower c = false) (upper s).
Proof.
  unfold upper. induction s as [|c s IH]; constructor; auto using upper_char_not_lower.
Qed.

(** No string with a lower-case ASCII letter is the upper-casing of a string. *)
Lemma upper_neq (s t : str) :
  Exists (λ c, is_lower c = true) t → upper s ≠ t.
Proof.
  intros Hex Heq. subst t.
  apply Exists_exists in Hex as (c & Hin & Hc).
  pose proof (upper_not_lower s) as Hall.
  rewrite Forall_forall in Hall. specialize (Hall c Hin). congruence.
Qed.

(** ** squeeze *)

(** C4, as its description states it, with the tail left unconstrained: the
    length contract fails for a negative [tail]. *)
Lemma squeeze_negative_tail_length :
  3 - (-2) - 2 >= 0 ∧ 3 < len (lit "abcdef") ∧
  squeeze (lit "abcdef") 3 (-2) = lit "abc..cdef" ∧
  len (squeeze (lit "abcdef") 3 (-2)) ≠ (if 0 <? -2 then 3 else 3 - (-2)).
Proof. vm_compute. repeat split; congruence. Qed.

Lemma squeeze_fits (s : str) (maxlen tail : Z) :
  len s ≤ maxlen → squeeze s maxlen tail = s.
Proof.
  intros Hfit. unfold squeeze. destruct (Z.leb_spec (len s) maxlen); [done | lia].
Qed.

Lemma squeeze_long (s : str) (maxlen tail : Z) :
  0 ≤ tail → maxlen - tail - 2 >= 0 → maxlen < len s →
  squeeze s maxlen tail =
    take (Z.to_nat (maxlen - tail - 2)) s ++ lit ".."
      ++ drop (length s - Z.to_nat tail) s.
Proof.
  intros Htail Hroom Hlong. unfold squeeze.
  destruct (Z.leb_spec (len s) maxlen) as [?|_]; [lia|].
  f_equal; [|f_equal].
  - unfold slice_to, slice_index.
    destruct (Z.ltb_spec (maxlen - tail - 2) 0); [lia|].
    rewrite Z.min_l by lia. done.
  - destruct (Z.eqb_spec tail 0) as [->|Hne].
    + rewrite Nat.sub_0_r, drop_all. done.
    + unfold slice_from, slice_index.
      destruct (Z.ltb_spec (- tail) 0); [|lia].
      f_equal. unfold len in *. lia.
Qed.

Lemma squeeze_long_length (s : str) (maxlen tail : Z) :
  0 ≤ tail → maxlen - tail - 2 >= 0 → maxlen < len s →
  len (squeeze s maxlen tail) = maxlen.
Proof.
  intros Htail Hroom Hlong. rewrite squeeze_long by done.
  rewrite !len_app. unfold len in *.
  rewrite length_take, length_drop. change (length (lit "..")) with 2%nat. lia.
Qed.

(** C4 (amended): for a tail that is not negative and [maxlen - tail - 2 >= 0],
    [squeeze] returns [s] itself when it fits; otherwise the first
    [maxlen - tail - 2] characters, the marker [..] and the last [tail]
    characters (none when [tail] is 0), and the output has length [maxlen]
    when [tail > 0], else [maxlen - tail]. *)
Theorem squeeze_spec (s : str) (maxlen tail : Z) :
  0 ≤ tail → maxlen - tail - 2 >= 0 →
  (len s ≤ maxlen → squeeze s maxlen tail = s) ∧
  (maxlen < len s →
     squeeze s maxlen tail =
       take (Z.to_nat (maxlen - tail - 2)) s ++ lit ".."
         ++ drop (length s - Z.to_nat tail) s
     ∧ (tail = 0 → drop (length s - Z.to_nat tail) s = [])
     ∧ len (squeeze s maxlen tail) = (if 0 <? tail then maxlen else maxlen - tail)).
Proof.
  intros Htail Hroom. split; [apply squeeze_fits|].
  intros Hlong. split; [by apply squeeze_long|]. split.
  - intros ->. rewrite Nat.sub_0_r. apply drop_all.
  - rewrite squeeze_long_length by done.
    destruct (Z.ltb_spec 0 tail); lia.
Qed.

Lemma squeeze_spec_witness :
  0 ≤ 2 ∧ 8 - 2 - 2 >= 0 ∧ 8 < len (lit "abcdefghij") ∧
  squeeze (lit "abcdefghij") 8 2 = lit "abcd..ij" ∧
  len (squeeze (lit "abcdefghij") 8 2) = 8 ∧
  squeeze (lit "abcdefghij") 6 0 = lit "abcd..".
Proof.
  split; [lia|]. split; [lia|]. split; [reflexivity|].
  destruct (squeeze_spec (lit "abcdefghij") 8 2) as [_ H]; [lia | lia |].
  destruct H as (Heq & _ & Hlen); [reflexivity|].
  split; [exact Heq|]. split; [exact Hlen|].
  destruct (squeeze_spec (lit "abcdefghij") 6 0) as [_ H0]; [lia | lia |].
  destruct H0 as (Heq0 & _ & _); [reflexivity|]. exact Heq0.
Defined.

(** ** Headers *)

Section HeaderFacts.

Variable black_on_cyan : str → str.
Variable log_level_str : str → result str.

Lemma upper_never_info (level : str) : upper level ≠ lit "info".
Proof. apply upper_neq. apply Exists_cons_hd. reflexivity. Qed.

Lemma upper_never_debug (level : str) : upper level ≠ lit "debug".
Proof. apply upper_neq. apply Exists_cons_hd. reflexivity. Qed.

Lemma upper_never_trace (level : str) : upper level ≠ lit "trace".
Proof. apply upper_neq. apply Exists_cons_hd. reflexivity. Qed.

Lemma format_header_raises (header level : str) :
  format_header black_on_cyan header level
  = Raise (RuntimeError (invalid_header_level level)).
Proof.
  unfold format_header.
  destruct (decide (upper level = lit "info")) as [E|_];
    [by apply upper_never_info in E|].
  destruct (decide (upper level = lit "debug")) as [E|_];
    [by apply upper_never_debug in E|].
  destruct (decide (upper level = lit "trace")) as [E|_];
    [by apply upper_never_trace in E|].
  done.
Qed.

(** C1: [format_header] compares the upper-cased level with lower-case
    names, so no level is recognised: every call raises, the three named
    levels included. *)
Theorem format_header_never_formats (header level : str) :
  format_header black_on_cyan header level
    = Raise (RuntimeError (invalid_header_level level))
  ∧ format_header black_on_cyan header (lit "info")
    ≠ Ok (lit ">>> " ++ title header).
Proof.
  split; [apply format_header_raises|].
  rewrite format_header_raises. discriminate.
Qed.

(** C5: a level that [LogLevel] normalises to none of [info], [debug],
    [trace] makes [make_header] return the header as it is, where
    [format_header] raises. *)
Theorem make_header_unrecognized (header level normalized : str) :
  log_level_str level = Ok normalized →
  normalized ≠ lit "info" → normalized ≠ lit "debug" →
  normalized ≠ lit "trace" →
  make_header black_on_cyan log_level_str header level = Ok header
  ∧ format_header black_on_cyan header level
    = Raise (RuntimeError (invalid_header_level level)).
Proof.
  intros Hnorm H1 H2 H3. split; [|apply format_header_raises].
  unfold make_header. rewrite Hnorm. simpl.
  repeat case_decide; done.
Qed.

End HeaderFacts.

Lemma make_header_unrecognized_witness :
  let log_level_str := λ level : str, Ok level in
  log_level_str (lit "bogus") = Ok (lit "bogus") ∧
  lit "bogus" ≠ lit "info" ∧ lit "bogus" ≠ lit "debug" ∧
  lit "bogus" ≠ lit "trace" ∧
  make_header id log_level_str (lit "heading") (lit "bogus") = Ok (lit "heading") ∧
  format_header id (lit "heading") (lit "bogus")
    = Raise (RuntimeError (invalid_header_level (lit "bogus"))).
Proof.
  intros log_level_str.
  split; [reflexivity|]. split; [discriminate|]. split; [discriminate|].
  split; [discriminate|].
  apply (make_header_unrecognized id log_level_str (lit "heading") (lit "bogus") (lit "bogus"));
    [reflexivity | discriminate | discriminate | discriminate].
Defined.

(** ** override *)

Lemma first_not_none_reverse (args : list val) :
  first_not_none (reverse args)
  = default VNone (last (filter (λ x, is_none x = false) args)).
Proof.
  induction args as [|x args IH] using rev_ind; [done|].
  rewrite reverse_snoc, filter_app. simpl.
  rewrite filter_cons, filter_nil.
  destruct (is_none x) eqn:E.
  - rewrite decide_False by done. rewrite app_nil_r. done.
  - rewrite decide_True by done. rewrite last_snoc. done.
Qed.

(** C8: [override] returns the last argument that is not [None], and
    [None] when there is none. *)
Theorem override_spec (args : list val) :
  override args = default VNone (last (filter (λ x, is_none x = false) args))
  ∧ override [VInt 1; VInt 2; VNone] = VInt 2
  ∧ override [VNone; VInt 5; VNone] = VInt 5
  ∧ override [VNone; VNone] = VNone.
Proof.
  split; [apply first_not_none_reverse|]. by repeat split.
Qed.

(** ** Loops *)

Lemma for_each_preserves {S A} (I : S → Prop) (body : S → A → option S)
    (xs : list A) (s s' : S) :
  I s →
  (∀ s x s', x ∈ xs → I s → body s x = Some s' → I s') →
  for_each body xs s = Some s' → I s'.
Proof.
  revert s. induction xs as [|x xs IH]; intros s Hs Hbody Hrun; simpl in Hrun.
  - by simplify_eq.
  - destruct (body s x) as [s1|] eqn:E; [|done].
    apply (IH s1); [| |done].
    + eapply Hbody; [|done..]. left.
    + intros. eapply Hbody; [|done..]. by right.
Qed.

Lemma for_each_total {S A} (I : S → Prop) (body : S → A → option S)
    (xs : list A) (s : S) :
  I s →
  (∀ s x, x ∈ xs → I s → ∃ s', body s x = Some s' ∧ I s') →
  ∃ s', for_each body xs s = Some s' ∧ I s'.
Proof.
  revert s. induction xs as [|x xs IH]; intros s Hs Hbody; simpl.
  - eauto.
  - destruct (Hbody s x) as (s1 & -> & Hs1); [left|done|].
    apply IH; [done|]. intros. apply Hbody; [by right|done].
Qed.

(** ** Dicts *)

Lemma dict_get_elem {V} (items : list (str * V)) (k : str) :
  k ∈ items.*1 → ∃ v, dict_get items k = Some v.
Proof.
  induction items as [|[k0 v0] items IH]; simpl.
  - by intros ?%elem_of_nil.
  - intros [->|Hin]%elem_of_cons.
    + rewrite decide_True by done. eauto.
    + case_decide; eauto.
Qed.

Lemma dict_get_in {V} (items : list (str * V)) (k : str) (v : V) :
  dict_get items k = Some v → (k, v) ∈ items.
Proof.
  induction items as [|[k0 v0] items IH]; simpl; [done|].
  case_decide.
  - intros [= ->]. subst. left.
  - intros. right. auto.
Qed.

Lemma dict_get_value {V} (items : list (str * V)) (k : str) (v : V) :
  dict_get items k = Some v → v ∈ items.*2.
Proof.
  intros Hget%dict_get_in. by apply (list_elem_of_fmap_2 snd) in Hget.
Qed.

Lemma dict_get_middle {V} (pre post : list (str * V)) (k : str) (v : V) :
  k ∉ pre.*1 → dict_get (pre ++ (k, v) :: post) k = Some v.
Proof.
  induction pre as [|[k0 v0] pre IH]; simpl; intros Hnot.
  - by rewrite decide_True.
  - rewrite not_elem_of_cons in Hnot. destruct Hnot as [Hne Hnot].
    rewrite decide_False by done. auto.
Qed.

Lemma dict_set_middle {V} (pre post : list (str * V)) (k : str) (v w : V) :
  k ∉ pre.*1 →
  dict_set (pre ++ (k, v) :: post) k w = pre ++ (k, w) :: post.
Proof.
  induction pre as [|[k0 v0] pre IH]; simpl; intros Hnot.
  - by rewrite decide_True.
  - rewrite not_elem_of_cons in Hnot. destruct Hnot as [Hne Hnot].
    rewrite decide_False by done. by rewrite IH.
Qed.

(** ** What trim may change *)

Lemma slot_ok_refl maxlen v : slot_ok maxlen v v.
Proof. by left. Qed.

Lemma slot_ok_trans maxlen v1 v2 v3 :
  slot_ok maxlen v1 v2 → slot_ok maxlen v2 v3 → slot_ok maxlen v1 v3.
Proof.
  intros [->|(s & s' & -> & Hlong & ->)] H23; [done|].
  destruct H23 as [->|(t & t' & _ & _ & ->)]; right; eauto.
Qed.

Lemma obj_ok_refl maxlen o : obj_ok maxlen o o.
Proof.
  destruct o; simpl; [|done].
  apply Forall2_same_length_lookup_2; [done|].
  intros i kv kv' H1 H2. simplify_eq. split; [done|apply slot_ok_refl].
Qed.

Lemma obj_ok_trans maxlen o1 o2 o3 :
  obj_ok maxlen o1 o2 → obj_ok maxlen o2 o3 → obj_ok maxlen o1 o3.
Proof.
  destruct o1, o2, o3; simpl; try done; [|congruence].
  intros H12 H23. eapply Forall2_trans; [|done..].
  simpl. intros kv1 kv2 kv3 [E1 S1] [E2 S2]. split; [congruence|].
  by eapply slot_ok_trans.
Qed.

Lemma store_ok_refl maxlen h : store_ok maxlen h h.
Proof.
  apply Forall2_same_length_lookup_2; [done|].
  intros i o o' H1 H2. simplify_eq. apply obj_ok_refl.
Qed.

Lemma store_ok_trans maxlen h1 h2 h3 :
  store_ok maxlen h1 h2 → store_ok maxlen h2 h3 → store_ok maxlen h1 h3.
Proof.
  intros. eapply Forall2_trans; [|done..]. apply obj_ok_trans.
Qed.

Lemma store_ok_lookup maxlen h h' l o :
  store_ok maxlen h h' → h !! l = Some o →
  ∃ o', h' !! l = Some o' ∧ obj_ok maxlen o o'.
Proof. intros Hok Hl. by eapply Forall2_lookup_l. Qed.

Lemma store_ok_lookup_r maxlen h h' l o' :
  store_ok maxlen h h' → h' !! l = Some o' →
  ∃ o, h !! l = Some o ∧ obj_ok maxlen o o'.
Proof. intros Hok Hl. by eapply Forall2_lookup_r. Qed.

Lemma store_ok_insert maxlen h l o o' :
  h !! l = Some o → obj_ok maxlen o o' → store_ok maxlen h (<[l := o']> h).
Proof.
  intros Hl Hok. apply Forall2_same_length_lookup_2.
  { by rewrite length_insert. }
  intros i a b Ha Hb. destruct (decide (i = l)) as [->|Hne].
  - rewrite list_lookup_insert_eq in Hb by (by eapply lookup_lt_Some).
    by simplify_eq.
  - rewrite list_lookup_insert_ne in Hb by done. simplify_eq. apply obj_ok_refl.
Qed.

Lemma store_ok_list maxlen h h' l items :
  store_ok maxlen h h' → h !! l = Some (OList items) →
  h' !! l = Some (OList items).
Proof.
  intros Hok Hl. destruct (store_ok_lookup _ _ _ _ _ Hok Hl) as (o' & Hl' & Ho).
  destruct o'; simpl in Ho; [done|]. by subst.
Qed.

Lemma store_ok_dict maxlen h h' l items :
  store_ok maxlen h h' → h !! l = Some (ODict items) →
  ∃ items', h' !! l = Some (ODict items') ∧ items'.*1 = items.*1
    ∧ Forall2 (slot_ok maxlen) items.*2 items'.*2.
Proof.
  intros Hok Hl. destruct (store_ok_lookup _ _ _ _ _ Hok Hl) as (o' & Hl' & Ho).
  destruct o' as [items'|]; simpl in Ho; [|done].
  exists items'. split; [done|]. clear -Ho.
  induction Ho as [|kv kv' ?? [E S] _ [IH1 IH2]]; [by split; [|constructor]|].
  rewrite !fmap_cons. split; [congruence|]. by constructor.
Qed.

Lemma obj_ok_ref_values maxlen o o' l :
  obj_ok maxlen o o' → VRef l ∈ obj_values o' ↔ VRef l ∈ obj_values o.
Proof.
  destruct o as [items|items], o' as [items'|items']; simpl; try done;
    [|by intros ->].
  induction 1 as [|[k v] [k' v'] ?? [E S] _ IH]; [done|].
  simpl in *. rewrite !elem_of_cons, IH.
  destruct S as [->|(s & s' & -> & _ & ->)]; [done|].
  split; intros [?|?]; try done; by right.
Qed.

Lemma obj_ok_dict_set maxlen items k s s' :
  dict_get items k = Some (VStr s) → maxlen < len s →
  obj_ok maxlen (ODict items) (ODict (dict_set items k (VStr s'))).
Proof.
  intros Hget Hlong. simpl.
  induction items as [|[k0 v0] items IH]; simpl in *; [done|].
  case_decide.
  - simplify_eq. constructor.
    + split; [done|]. right. eauto.
    + apply (obj_ok_refl maxlen (ODict items)).
  - constructor; [|auto]. split; [done|apply slot_ok_refl].
Qed.

(** ** trim keeps the shape of the store *)

Lemma trim_S (n : nat) maxlen h data :
  trim (S n) maxlen h data =
    match data with
    | VRef l =>
        match h !! l with
        | Some (ODict items) =>
            for_each (trim_dict_key (trim n maxlen) maxlen l) items.*1 h
        | Some (OList items) =>
            fst <$> for_each (trim_list_item (trim n maxlen) maxlen l)
                      (seq 0 (length items)) (h, VNone)
        | None => None
        end
    | _ => Some h
    end.
Proof. done. Qed.

Lemma trim_dict_key_ok (rec : store → val → option store) maxlen l h key h' :
  (∀ h v h', rec h v = Some h' → store_ok maxlen h h') →
  trim_dict_key rec maxlen l h key = Some h' → store_ok maxlen h h'.
Proof.
  intros Hrec. unfold trim_dict_key.
  destruct (h !! l) as [[items|]|] eqn:Hl; try done.
  destruct (dict_get items key) as [v|] eqn:Hget; [|done].
  destruct (is_container v) eqn:Hc; [by apply Hrec|].
  destruct v as [| | | |s|]; try (intros [= <-]; apply store_ok_refl).
  destruct (Z.ltb_spec maxlen (len s)); intros [= <-]; [|apply store_ok_refl].
  eapply store_ok_insert; [done|]. by eapply obj_ok_dict_set.
Qed.

Lemma trim_list_item_ok (rec : store → val → option store) maxlen l st i st' :
  (∀ h v h', rec h v = Some h' → store_ok maxlen h h') →
  trim_list_item rec maxlen l st i = Some st' → store_ok maxlen st.1 st'.1.
Proof.
  intros Hrec. unfold trim_list_item.
  destruct (st.1 !! l) as [[|items]|] eqn:Hl; try done.
  destruct (items !! i) as [item|] eqn:Hi; [|intros [= <-]; apply store_ok_refl].
  destruct (is_container item) eqn:Hc.
  - destruct (rec st.1 item) as [h1|] eqn:E; simpl; [|done].
    intros [= <-]. by eapply Hrec.
  - destruct item as [| | | |s|]; try (intros [= <-]; apply store_ok_refl).
    destruct (maxlen <? len s); intros [= <-]; apply store_ok_refl.
Qed.

Lemma trim_store_ok (n : nat) maxlen h data h' :
  trim n maxlen h data = Some h' → store_ok maxlen h h'.
Proof.
  revert h data h'. induction n as [|n IH]; intros h data h'; [done|].
  rewrite trim_S. destruct data as [| | | | |l]; try (intros [= <-]; apply store_ok_refl).
  destruct (h !! l) as [[items|items]|] eqn:Hl; [| |done].
  - apply (for_each_preserves (λ h1, store_ok maxlen h h1)); [apply store_ok_refl|].
    intros h1 key h2 _ Hok Hstep. eapply store_ok_trans; [done|].
    eapply trim_dict_key_ok; [|done]. apply IH.
  - destruct (for_each _ _ _) as [st|] eqn:Hrun; [|done]. intros [= <-].
    revert Hrun.
    apply (for_each_preserves (λ st1 : store * val, store_ok maxlen h st1.1));
      [apply store_ok_refl|].
    intros st1 i st2 _ Hok Hstep. eapply store_ok_trans; [done|].
    eapply trim_list_item_ok; [|done]. apply IH.
Qed.

(** ** Bounded nesting *)

Lemma bounded_S n h v : bounded n h v → bounded (S n) h v.
Proof.
  revert v. induction n as [|n IH]; intros v; destruct v as [| | | | |l]; try done.
  simpl. destruct (h !! l) as [o|]; [|done].
  intros Hall. eapply Forall_impl; [done|]. intros v. apply (IH v).
Qed.

Lemma bounded_le n m h v : (n ≤ m)%nat → bounded n h v → bounded m h v.
Proof. induction 1; auto using bounded_S. Qed.

Lemma bounded_children n h l o v :
  bounded (S n) h (VRef l) → h !! l = Some o → v ∈ obj_values o →
  bounded n h v.
Proof.
  simpl. intros Hb Hl Hin. rewrite Hl in Hb.
  rewrite Forall_forall in Hb. auto.
Qed.

Lemma obj_ok_values_bounded maxlen n h o o' :
  obj_ok maxlen o o' → Forall (bounded n h) (obj_values o) →
  Forall (bounded n h) (obj_values o').
Proof.
  destruct o as [items|items], o' as [items'|items']; simpl; try done;
    [|by intros ->].
  induction 1 as [|[k v] [k' v'] ?? [E S] _ IH]; [done|].
  rewrite !fmap_cons, !Forall_cons. simpl in *. intros [Hv Hrest].
  split; [|auto]. destruct S as [->|(s & s' & -> & _ & ->)]; [done|by destruct n].
Qed.

Lemma bounded_store_ok maxlen n h h' v :
  store_ok maxlen h h' → bounded n h v → bounded n h' v.
Proof.
  intros Hok. revert v. induction n as [|n IH]; intros v;
    destruct v as [| | | | |l]; try done.
  simpl. destruct (h !! l) as [o|] eqn:Hl; [|done].
  destruct (store_ok_lookup _ _ _ _ _ Hok Hl) as (o' & -> & Ho).
  intros Hall. eapply obj_ok_values_bounded; [done|].
  eapply Forall_impl; [done|]. apply IH.
Qed.

(** ** trim returns on bounded data *)

Lemma trim_total (n : nat) maxlen h data :
  bounded n h data →
  ∃ h', trim (S n) maxlen h data = Some h' ∧ store_ok maxlen h h'.
Proof.
  revert h data. induction n as [|n IH]; intros h data Hb.
  { destruct data; try done; simpl; eauto using store_ok_refl. }
  destruct data as [| | | | |l]; try by (simpl; eauto using store_ok_refl).
  rewrite trim_S.
  destruct (h !! l) as [[items|items]|] eqn:Hl; [| |by simpl in Hb; rewrite Hl in Hb].
  - apply (for_each_total (λ h1, store_ok maxlen h h1)); [apply store_ok_refl|].
    intros h1 key Hkey Hok.
    destruct (store_ok_dict _ _ _ _ _ Hok Hl) as (items1 & Hl1 & Hkeys & _).
    unfold trim_dict_key. rewrite Hl1.
    destruct (dict_get_elem items1 key) as [v Hget]; [by rewrite Hkeys|].
    rewrite Hget.
    assert (bounded n h1 v) as Hv.
    { eapply bounded_children; [|done|].
      - by eapply bounded_store_ok.
      - simpl. by eapply dict_get_value. }
    destruct (is_container v) eqn:Hc.
    + destruct (IH h1 v Hv) as (h2 & -> & Hok2).
      eauto using store_ok_trans.
    + assert (∀ h2, store_ok maxlen h1 h2 →
                ∃ s', Some h2 = Some s' ∧ store_ok maxlen h s') as Hdone
        by eauto using store_ok_trans.
      destruct v as [| | | |s|]; try (apply Hdone, store_ok_refl).
      destruct (Z.ltb_spec maxlen (len s)); [|apply Hdone, store_ok_refl].
      apply Hdone. eapply store_ok_insert; [done|]. by eapply obj_ok_dict_set.
  - destruct (for_each_total (λ st1 : store * val, store_ok maxlen h st1.1)
               (trim_list_item (trim (S n) maxlen) maxlen l)
               (seq 0 (length items)) (h, VNone)) as (st & -> & Hst);
      [apply store_ok_refl| |by simpl; eauto].
    intros [h1 x] i _ Hok. simpl in Hok.
    pose proof (store_ok_list _ _ _ _ _ Hok Hl) as Hl1.
    unfold trim_list_item. cbn [fst]. rewrite Hl1.
    destruct (items !! i) as [item|] eqn:Hi; [|eauto].
    destruct (is_container item) eqn:Hc.
    + destruct (IH h1 item) as (h2 & -> & Hok2).
      { eapply bounded_children; [|done|].
        - by eapply bounded_store_ok.
        - simpl. by eapply list_elem_of_lookup_2. }
      cbn. eauto using store_ok_trans.
    + destruct item as [| | | |s|]; eauto.
      destruct (maxlen <? len s); eauto.
Qed.

(** ** What trim can reach *)

Lemma reach_ref h v l : reach h v l → is_container v = true.
Proof. by destruct 1. Qed.

Lemma reach_store_ok maxlen h h' v l :
  store_ok maxlen h h' → reach h' v l → reach h v l.
Proof.
  intros Hok. induction 1 as [l|l o' v l' Hl Hin Hreach IH]; [constructor|].
  destruct (store_ok_lookup_r _ _ _ _ _ Hok Hl) as (o & Hlo & Ho).
  eapply reach_step; [done| |done].
  destruct v as [| | | | |x]; try by apply reach_ref in Hreach.
  by apply (obj_ok_ref_values _ _ _ _ Ho).
Qed.

Lemma bounded_reach n h v l :
  bounded n h v → reach h v l → bounded n h (VRef l).
Proof.
  intros Hb Hreach. revert n Hb.
  induction Hreach as [l|l o v l' Hl Hin Hreach IH]; intros n Hb; [done|].
  destruct n as [|n]; [done|].
  apply bounded_S, IH. by eapply bounded_children.
Qed.

(** A bounded container is not below one of its own values. *)
Lemma bounded_acyclic n h l o v :
  bounded n h (VRef l) → h !! l = Some o → v ∈ obj_values o →
  ¬ reach h v l.
Proof.
  intros Hb Hl Hin Hreach. induction n as [|n IH]; [done|].
  apply IH. eapply bounded_reach; [|done]. by eapply bounded_children.
Qed.

(** trim writes only to what its argument reaches. *)
Lemma trim_frame (n : nat) maxlen h data h' l' :
  trim n maxlen h data = Some h' → ¬ reach h data l' → h' !! l' = h !! l'.
Proof.
  revert h data h'. induction n as [|n IH]; intros h data h'; [done|].
  rewrite trim_S. destruct data as [| | | | |l]; try by intros [= <-].
  destruct (h !! l) as [[items|items]|] eqn:Hl; [| |done]; intros Hrun Hnot.
  - revert Hrun.
    apply (for_each_preserves
             (λ h1, store_ok maxlen h h1 ∧ h1 !! l' = h !! l'));
      [by split; [apply store_ok_refl|]|].
    intros h1 key h2 _ [Hok Hsame] Hstep. split.
    { eapply store_ok_trans; [done|].
      eapply trim_dict_key_ok; [|done]. apply trim_store_ok. }
    rewrite <-Hsame. revert Hstep. unfold trim_dict_key.
    destruct (h1 !! l) as [[items1|]|] eqn:Hl1; try done.
    destruct (dict_get items1 key) as [v|] eqn:Hget; [|done].
    destruct (is_container v) eqn:Hc.
    + intros Hrec. eapply IH; [done|]. intros Hreach. apply Hnot.
      eapply reach_store_ok; [done|].
      eapply reach_step; [done| |done]. simpl. by eapply dict_get_value.
    + assert (l' ≠ l) by (intros ->; apply Hnot; constructor).
      destruct v as [| | | |s|]; try by intros [= <-].
      destruct (maxlen <? len s); intros [= <-]; [|done].
      by rewrite list_lookup_insert_ne.
  - destruct (for_each _ _ _) as [st|] eqn:Hloop; [|done].
    injection Hrun as <-. revert Hloop.
    apply (for_each_preserves
             (λ st1 : store * val, store_ok maxlen h st1.1 ∧ st1.1 !! l' = h !! l'));
      [by split; [apply store_ok_refl|]|].
    intros st1 i st2 _ [Hok Hsame] Hstep. split.
    { eapply store_ok_trans; [done|].
      eapply trim_list_item_ok; [|done]. apply trim_store_ok. }
    rewrite <-Hsame. revert Hstep. unfold trim_list_item.
    destruct (st1.1 !! l) as [[|items1]|] eqn:Hl1; try done.
    destruct (items1 !! i) as [item|] eqn:Hi; [|by intros [= <-]].
    destruct (is_container item) eqn:Hc.
    + destruct (trim n maxlen st1.1 item) as [h2|] eqn:Hrec; [|done].
      intros [= <-]. simpl. eapply IH; [done|]. intros Hreach. apply Hnot.
      eapply reach_store_ok; [done|].
      eapply reach_step; [done| |done]. simpl. by eapply list_elem_of_lookup_2.
    + destruct item as [| | | |s|]; try by intros [= <-].
      destruct (maxlen <? len s); by intros [= <-].
Qed.

(** ** The loop over a list *)

Lemma trim_list_loop (rec : store → val → option store) maxlen h l items :
  (∀ h v h', rec h v = Some h' → store_ok maxlen h h') →
  h !! l = Some (OList items) →
  ∀ rest seen h1 x,
    items = seen ++ rest → store_ok maxlen h h1 →
    fst <$> for_each (trim_list_item rec maxlen l)
              (seq (length seen) (length rest)) (h1, x)
    = for_each (trim_element rec) rest h1.
Proof.
  intros Hrec Hl. induction rest as [|item rest IH]; intros seen h1 x Hsplit Hok;
    [done|].
  pose proof (store_ok_list _ _ _ _ _ Hok Hl) as Hl1.
  cbn [length seq for_each]. unfold trim_list_item at 1, trim_element at 1.
  cbn [fst]. rewrite Hl1, Hsplit, list_lookup_middle by done.
  assert (Hnext : ∀ h2 y, store_ok maxlen h h2 →
            fst <$> for_each (trim_list_item rec maxlen l)
                      (seq (S (length seen)) (length rest)) (h2, y)
            = for_each (trim_element rec) rest h2).
  { intros h2 y Hok2.
    specialize (IH (seen ++ [item]) h2 y).
    rewrite length_app, Nat.add_1_r in IH. apply IH; [|done].
    by rewrite <-app_assoc. }
  destruct (is_container item) eqn:Hc.
  - destruct (rec h1 item) as [h2|] eqn:E; [|done]. cbn.
    apply Hnext. eapply store_ok_trans; [done|]. by eapply Hrec.
  - destruct item as [| | | |s|]; try by apply Hnext.
    destruct (maxlen <? len s); by apply Hnext.
Qed.

(** ** The loop over a dict *)

Lemma trim_values_keys maxlen items : (trim_values maxlen items).*1 = items.*1.
Proof.
  unfold trim_values. rewrite <-list_fmap_compose. done.
Qed.

Lemma trim_values_app maxlen a b :
  trim_values maxlen (a ++ b) = trim_values maxlen a ++ trim_values maxlen b.
Proof. apply fmap_app. Qed.

Lemma trim_dict_loop (n : nat) maxlen h l items :
  h !! l = Some (ODict items) → NoDup items.*1 → bounded (S n) h (VRef l) →
  ∀ rest seen h1,
    items = seen ++ rest → store_ok maxlen h h1 →
    h1 !! l = Some (ODict (trim_values maxlen seen ++ rest)) →
    ∃ h', for_each (trim_dict_key (trim (S n) maxlen) maxlen l) rest.*1 h1 = Some h'
        ∧ for_each (trim_entry (trim (S n) maxlen) maxlen l) rest h1 = Some h'
        ∧ store_ok maxlen h h'
        ∧ h' !! l = Some (ODict (trim_values maxlen items)).
Proof.
  intros Hl Hnodup Hb.
  induction rest as [|[k v] rest IH]; intros seen h1 Hsplit Hok Hl1.
  { exists h1. rewrite app_nil_r in *. subst. done. }
  assert (Hk : k ∉ (trim_values maxlen seen).*1).
  { rewrite trim_values_keys. subst items.
    rewrite fmap_app, fmap_cons in Hnodup.
    apply NoDup_app in Hnodup as (_ & Hdisj & _).
    intros Hin. apply (Hdisj k Hin). left. }
  assert (Hnext : ∀ h2, store_ok maxlen h h2 →
            h2 !! l = Some (ODict (trim_values maxlen seen
                                     ++ (k, trim_value maxlen v) :: rest)) →
            ∃ h', for_each (trim_dict_key (trim (S n) maxlen) maxlen l) rest.*1 h2 = Some h'
                ∧ for_each (trim_entry (trim (S n) maxlen) maxlen l) rest h2 = Some h'
                ∧ store_ok maxlen h h'
                ∧ h' !! l = Some (ODict (trim_values maxlen items))).
  { intros h2 Hok2 Hl2. apply (IH (seen ++ [(k, v)])); [|done|].
    - by rewrite <-app_assoc.
    - by rewrite trim_values_app, <-app_assoc. }
  rewrite fmap_cons. cbn [for_each fst].
  unfold trim_dict_key at 1, trim_entry at 1. cbn [fst snd].
  rewrite Hl1, dict_get_middle by done.
  destruct (is_container v) eqn:Hc.
  - assert (bounded (S n) h1 (VRef l)) as Hb1 by by eapply bounded_store_ok.
    assert (v ∈ obj_values (ODict (trim_values maxlen seen ++ (k, v) :: rest))) as Hin.
    { simpl. rewrite fmap_app, fmap_cons. apply elem_of_app. right. left. }
    destruct (trim_total n maxlen h1 v) as (h2 & Hrun & Hok2);
      [by eapply bounded_children|].
    rewrite Hrun. apply Hnext; [by eapply store_ok_trans|].
    rewrite (trim_frame _ _ _ _ _ _ Hrun); [|by eapply bounded_acyclic].
    rewrite Hl1. by destruct v.
  - destruct v as [| | | |s|]; try by apply Hnext.
    unfold trim_value in Hnext.
    destruct (maxlen <? len s) eqn:Hlong; [|by apply Hnext].
    apply Z.ltb_lt in Hlong.
    unfold dict_store. rewrite Hl1.
    apply Hnext.
    + eapply store_ok_trans; [done|]. eapply store_ok_insert; [done|].
      eapply obj_ok_dict_set; [|done]. by apply dict_get_middle.
    + rewrite list_lookup_insert_eq by by eapply lookup_lt_Some.
      by rewrite dict_set_middle.
Qed.

(** ** trim: the claims *)

(** C2: [trim] leaves every list of the store as it is, over-long string
    elements included; what it does for a list is to call itself on the
    elements that are containers, in order. *)
Theorem trim_list_elements_untouched (n : nat) (maxlen : Z) (h : store)
    (l : loc) (items : list val) :
  h !! l = Some (OList items) → bounded n h (VRef l) →
  ∃ h', trim (S n) maxlen h (VRef l) = Some h'
      ∧ h' !! l = Some (OList items)
      ∧ (∀ l2 items2, h !! l2 = Some (OList items2) →
           h' !! l2 = Some (OList items2))
      ∧ for_each (trim_element (trim n maxlen)) items h = Some h'.
Proof.
  intros Hl Hb.
  destruct (trim_total n maxlen h (VRef l) Hb) as (h' & Hrun & Hok).
  exists h'. split; [done|]. split; [by eapply store_ok_list|].
  split; [intros; by eapply store_ok_list|].
  rewrite <-Hrun, trim_S, Hl.
  symmetry.
  apply (trim_list_loop (trim n maxlen) maxlen h l items
           (trim_store_ok n maxlen) Hl items [] h VNone eq_refl
           (store_ok_refl _ _)).
Qed.

Lemma trim_list_elements_untouched_witness :
  let x100 := VStr (replicate 100 120%N) in
  let h := [OList [x100]] in
  h !! 0%nat = Some (OList [x100]) ∧ bounded 1 h (VRef 0%nat) ∧
  trim 2 79 h (VRef 0%nat) = Some h.
Proof.
  intros x100 h.
  assert (Hl : h !! 0%nat = Some (OList [x100])) by reflexivity.
  assert (Hb : bounded 1 h (VRef 0%nat)) by (simpl; repeat constructor).
  split; [exact Hl|]. split; [exact Hb|].
  destruct (trim_list_elements_untouched 1 79 h 0%nat [x100] Hl Hb)
    as (h' & Hrun & _ & _ & Hloop).
  rewrite Hrun. symmetry. exact Hloop.
Defined.

(** A list inside a list is still walked: the dict two levels down is
    trimmed, the string next to it is not. *)
Example trim_nested_in_list :
  trim 3 5
    [OList [VStr (lit "0123456789"); VRef 1%nat];
     OList [VRef 2%nat];
     ODict [(lit "a", VStr (lit "0123456789"))]] (VRef 0%nat)
  = Some
    [OList [VStr (lit "0123456789"); VRef 1%nat];
     OList [VRef 2%nat];
     ODict [(lit "a", VStr (lit "..789"))]].
Proof. reflexivity. Qed.

(** C3, as its description states it, for every [maxlen]: with a threshold
    below 5 the replaced value is longer than [maxlen]. *)
Lemma trim_short_maxlen_length :
  let h := [ODict [(lit "a", VStr (lit "0123456789"))]] in
  trim 2 2 h (VRef 0%nat)
    = Some [ODict [(lit "a", VStr (squeeze (lit "0123456789") 2 3))]]
  ∧ squeeze (lit "0123456789") 2 3 = lit "0123456..789"
  ∧ len (squeeze (lit "0123456789") 2 3) ≠ 2.
Proof. vm_compute. repeat split; congruence. Qed.

(** C3 (amended): for a dict, [trim] puts [squeeze(value, maxlen, tail=3)] in
    the place of every string value longer than [maxlen] and calls itself on
    every value that is a container; a replaced value has length [maxlen]
    when [maxlen] is at least 5. *)
Theorem trim_dict_values (n : nat) (maxlen : Z) (h : store) (l : loc)
    (items : list (str * val)) :
  h !! l = Some (ODict items) → NoDup items.*1 → bounded n h (VRef l) →
  ∃ h', trim (S n) maxlen h (VRef l) = Some h'
      ∧ h' !! l = Some (ODict (trim_values maxlen items))
      ∧ for_each (trim_entry (trim n maxlen) maxlen l) items h = Some h'
      ∧ (5 ≤ maxlen → ∀ k s, (k, VStr s) ∈ items → maxlen < len s →
           (k, VStr (squeeze s maxlen 3)) ∈ trim_values maxlen items
           ∧ len (squeeze s maxlen 3) = maxlen).
Proof.
  intros Hl Hnodup Hb. destruct n as [|n]; [done|].
  destruct (trim_dict_loop n maxlen h l items Hl Hnodup Hb items [] h)
    as (h' & Hrun & Hloop & _ & Hl'); [done|apply store_ok_refl|done|].
  exists h'. rewrite trim_S, Hl. split; [done|]. split; [done|]. split; [done|].
  intros Hmax k s Hin Hlong. split.
  - apply (list_elem_of_fmap_2 (λ kv, (kv.1, trim_value maxlen kv.2))) in Hin.
    simpl in Hin. by destruct (Z.ltb_spec maxlen (len s)); [|lia].
  - apply squeeze_long_length; lia.
Qed.

Lemma trim_dict_values_witness :
  let h := [ODict [(lit "a", VStr (replicate 100 120%N)); (lit "b", VRef 1%nat)];
            OList [VInt 7]] in
  h !! 0%nat = Some (ODict [(lit "a", VStr (replicate 100 120%N)); (lit "b", VRef 1%nat)])
  ∧ NoDup [lit "a"; lit "b"] ∧ bounded 2 h (VRef 0%nat)
  ∧ trim 3 79 h (VRef 0%nat)
    = Some [ODict [(lit "a", VStr (replicate 74 120%N ++ lit ".." ++ replicate 3 120%N));
                   (lit "b", VRef 1%nat)];
            OList [VInt 7]]
  ∧ len (replicate 74 120%N ++ lit ".." ++ replicate 3 120%N) = 79.
Proof.
  intros h.
  assert (Hl : h !! 0%nat = Some (ODict [(lit "a", VStr (replicate 100 120%N)); (lit "b", VRef 1%nat)]))
    by reflexivity.
  assert (Hnd : NoDup [lit "a"; lit "b"]).
  { apply NoDup_cons_2; [|apply NoDup_singleton].
    intros Hin%list_elem_of_singleton. discriminate Hin. }
  assert (Hb : bounded 2 h (VRef 0%nat)) by (simpl; repeat constructor).
  split; [exact Hl|]. split; [exact Hnd|]. split; [exact Hb|].
  destruct (trim_dict_values 2 79 h 0%nat _ Hl Hnd Hb) as (h' & Hrun & _ & Hloop & _).
  split; [|vm_compute; reflexivity].
  rewrite Hrun. rewrite <-Hloop. vm_compute. reflexivity.
Defined.

(** C10: [trim] returns on bounded data, and the store it leaves has the
    objects of the store it was given: every list as it was, every dict
    with its keys in their order, and every value of a dict as it was unless
    it was a string longer than [maxlen], in whose place there is a string. *)
Theorem trim_preserves_structure (n : nat) (maxlen : Z) (h : store) (data : val) :
  bounded n h data →
  ∃ h', trim (S n) maxlen h data = Some h'
      ∧ length h' = length h
      ∧ (∀ l items, h !! l = Some (OList items) → h' !! l = Some (OList items))
      ∧ (∀ l items, h !! l = Some (ODict items) →
           ∃ items', h' !! l = Some (ODict items')
             ∧ items'.*1 = items.*1
             ∧ Forall2 (λ v v', v' = v ∨ ∃ s s', v = VStr s ∧ maxlen < len s ∧ v' = VStr s')
                 items.*2 items'.*2).
Proof.
  intros Hb. destruct (trim_total n maxlen h data Hb) as (h' & Hrun & Hok).
  exists h'. split; [done|]. split; [symmetry; by eapply Forall2_length|].
  split; intros l items Hl; [by eapply store_ok_list|by eapply store_ok_dict].
Qed.

Lemma trim_preserves_structure_witness :
  let h := [ODict [(lit "a", VStr (lit "0123456789")); (lit "n", VInt 3);
                   (lit "l", VRef 1%nat)];
            OList [VStr (lit "0123456789"); VNone; VBool true]] in
  bounded 2 h (VRef 0%nat) ∧
  ∃ h', trim 3 6 h (VRef 0%nat) = Some h' ∧ length h' = 2%nat
      ∧ h' !! 1%nat = Some (OList [VStr (lit "0123456789"); VNone; VBool true]).
Proof.
  intros h.
  assert (Hb : bounded 2 h (VRef 0%nat)) by (simpl; repeat constructor).
  split; [exact Hb|].
  destruct (trim_preserves_structure 2 6 h (VRef 0%nat) Hb)
    as (h' & Hrun & Hlen & Hlists & _).
  exists h'. split; [exact Hrun|]. split; [exact Hlen|].
  apply Hlists. reflexivity.
Defined.

(** ** copy.deepcopy *)

Lemma deepcopy_S (n : nat) memo h x :
  deepcopy (S n) memo h x =
    match x with
    | VRef l =>
        match memo !! l with
        | Some y => Some (memo, h, VRef y)
        | None =>
            let y := length h in
            match h !! l with
            | Some (OList items) =>
                st ← for_each (copy_list_item (deepcopy n) y) items
                       (<[l := y]> memo, h ++ [OList []]);
                Some (st.1, st.2, VRef y)
            | Some (ODict items) =>
                st ← for_each (copy_dict_item (deepcopy n) y) items
                       (<[l := y]> memo, h ++ [ODict []]);
                Some (st.1, st.2, VRef y)
            | None => None
            end
        end
    | _ => Some (memo, h, x)
    end.
Proof. done. Qed.

Lemma bounded_scalar n h v : is_container v = false → bounded n h v.
Proof. by destruct n, v. Qed.

Lemma renamed_weaken (m m' : gmap loc loc) v v' :
  m ⊆ m' → renamed m v v' → renamed m' v v'.
Proof.
  intros Hsub. destruct v; simpl; try done.
  intros (y & Hy & ->). exists y. split; [|done]. by eapply lookup_weaken.
Qed.

Lemma copy_of_weaken (m m' : gmap loc loc) o o' :
  m ⊆ m' → copy_of m o o' → copy_of m' o o'.
Proof.
  intros Hsub. destruct o, o'; simpl; try done; intros H;
    (eapply Forall2_impl; [done|]); simpl.
  - intros ?? [??]. eauto using renamed_weaken.
  - eauto using renamed_weaken.
Qed.

Lemma copy_of_values (m : gmap loc loc) o o' :
  copy_of m o o' → Forall2 (renamed m) (obj_values o) (obj_values o').
Proof.
  destruct o as [xs|xs], o' as [ys|ys]; simpl; try done.
  induction 1 as [|?? ?? [_ ?]]; [constructor|].
  rewrite !fmap_cons. by constructor.
Qed.

Lemma prefix_insert_ge (h0 h : store) y o :
  h0 `prefix_of` h → (length h0 ≤ y)%nat → h0 `prefix_of` <[y := o]> h.
Proof.
  intros [k ->] Hy. exists (<[(y - length h0)%nat := o]> k).
  by rewrite insert_app_r_alt.
Qed.

Lemma dict_set_fresh {V} (items : list (str * V)) (k : str) (v : V) :
  k ∉ items.*1 → dict_set items k v = items ++ [(k, v)].
Proof.
  induction items as [|[k0 v0] items IH]; simpl; [done|].
  rewrite not_elem_of_cons. intros [Hne Hnot].
  rewrite decide_False by done. by rewrite IH.
Qed.

(** Writing to the copy under construction keeps the invariant. *)
Lemma copy_inv_fill h0 x y pending m h o :
  copy_inv h0 (x :: pending) m h → m !! x = Some y →
  copy_inv h0 (x :: pending) m (<[y := o]> h).
Proof.
  intros [Hpre Hrange Hinj Hdone] Hx. split.
  - apply prefix_insert_ge; [done|]. by apply (Hrange x y).
  - intros x' y' Hx'. rewrite length_insert. eauto.
  - done.
  - intros x' y' Hx' Hnot. rewrite not_elem_of_cons in Hnot.
    destruct Hnot as [Hne Hnot].
    destruct (Hdone x' y' Hx') as (o1 & o1' & ? & ? & ?);
      [by rewrite not_elem_of_cons|].
    exists o1, o1'. split; [done|]. split; [|done].
    rewrite list_lookup_insert_ne; [done|].
    intros <-. apply Hne. by eapply Hinj.
Qed.

(** Entering a new, empty copy for [x] keeps the invariant. *)
Lemma copy_inv_enter h0 x pending m h o :
  copy_inv h0 pending m h → m !! x = None →
  copy_inv h0 (x :: pending) (<[x := length h]> m) (h ++ [o]).
Proof.
  intros [Hpre Hrange Hinj Hdone] Hx. split.
  - by apply prefix_app_r.
  - intros x' y'. rewrite length_app. simpl.
    destruct (decide (x = x')) as [<-|Hne].
    + rewrite lookup_insert_eq. intros [= <-].
      apply prefix_length in Hpre. lia.
    + rewrite lookup_insert_ne by done. intros H%Hrange. lia.
  - intros x1 x2 y0.
    destruct (decide (x = x1)) as [<-|Hne1], (decide (x = x2)) as [<-|Hne2];
      rewrite ?lookup_insert_eq, ?lookup_insert_ne by done; try done.
    + intros [= <-] H%Hrange. lia.
    + intros H%Hrange [= <-]. lia.
    + apply Hinj.
  - intros x' y' Hx' Hnot. rewrite not_elem_of_cons in Hnot.
    destruct Hnot as [Hne Hnot].
    rewrite lookup_insert_ne in Hx' by done.
    destruct (Hdone x' y' Hx' Hnot) as (o1 & o1' & ? & ? & ?).
    exists o1, o1'. split; [done|]. split; [by apply lookup_app_l_Some|].
    eapply copy_of_weaken; [|done]. by apply insert_subseteq.
Qed.

(** Once the copy of [x] is complete, [x] is no longer pending. *)
Lemma copy_inv_leave h0 x y pending m h o o' :
  copy_inv h0 (x :: pending) m h → m !! x = Some y →
  h0 !! x = Some o → h !! y = Some o' → copy_of m o o' →
  copy_inv h0 pending m h.
Proof.
  intros [Hpre Hrange Hinj Hdone] Hx Ho Ho' Hcopy. split; try done.
  intros x' y' Hx' Hnot. destruct (decide (x' = x)) as [->|Hne].
  - simplify_eq. eauto.
  - apply Hdone; [done|]. by rewrite not_elem_of_cons.
Qed.

Lemma copy_list_loop h0 n rec x y pending xs :
  copy_rec_spec h0 n rec →
  ∀ rest seen m h ys,
    xs = seen ++ rest → Forall (bounded n h0) rest →
    copy_inv h0 (x :: pending) m h → m !! x = Some y →
    h !! y = Some (OList ys) → Forall2 (renamed m) seen ys →
    ∃ m' h' ys',
      for_each (copy_list_item rec y) rest (m, h) = Some (m', h')
      ∧ copy_inv h0 (x :: pending) m' h' ∧ m ⊆ m'
      ∧ take y h' = take y h
      ∧ h' !! y = Some (OList ys') ∧ Forall2 (renamed m') xs ys'.
Proof.
  intros Hrec. induction rest as [|a rest IH];
    intros seen m h ys Hsplit Hb Hinv Hx Hy Hseen.
  { exists m, h, ys. rewrite app_nil_r in Hsplit. by subst. }
  apply Forall_cons in Hb as [Ha Hb].
  destruct (Hrec _ m h a Hinv Ha) as (m2 & h2 & a' & Hcall & Hinv2 & Hsub & Hpre & Ha').
  cbn [for_each]. unfold copy_list_item at 1. cbn [fst snd].
  rewrite Hcall. cbn.
  assert (Hy2 : h2 !! y = Some (OList ys)) by by eapply prefix_lookup_Some.
  unfold list_append. rewrite Hy2. cbn.
  assert (Hx2 : m2 !! x = Some y) by by eapply lookup_weaken.
  destruct (IH (seen ++ [a]) m2 (<[y := OList (ys ++ [a'])]> h2) (ys ++ [a']))
    as (m' & h' & ys' & Hloop & Hinv' & Hsub' & Htake & Hy' & Hall).
  - by rewrite <-app_assoc.
  - done.
  - by apply copy_inv_fill.
  - done.
  - apply list_lookup_insert_eq. by eapply lookup_lt_Some.
  - apply Forall2_app; [|by constructor].
    eapply Forall2_impl; [done|]. eauto using renamed_weaken.
  - exists m', h', ys'. split; [done|]. split; [done|].
    split; [by etrans|]. split; [|done].
    rewrite Htake, take_insert_ge by done.
    destruct Hpre as [k ->]. rewrite take_app_le; [done|].
    apply lookup_lt_Some in Hy. lia.
Qed.

Lemma copy_dict_loop h0 n rec x y pending xs :
  copy_rec_spec h0 n rec → NoDup xs.*1 →
  ∀ rest seen m h ys,
    xs = seen ++ rest → Forall (bounded n h0) rest.*2 →
    copy_inv h0 (x :: pending) m h → m !! x = Some y →
    h !! y = Some (ODict ys) →
    Forall2 (λ kv kv', kv'.1 = kv.1 ∧ renamed m kv.2 kv'.2) seen ys →
    ∃ m' h' ys',
      for_each (copy_dict_item rec y) rest (m, h) = Some (m', h')
      ∧ copy_inv h0 (x :: pending) m' h' ∧ m ⊆ m'
      ∧ take y h' = take y h
      ∧ h' !! y = Some (ODict ys')
      ∧ Forall2 (λ kv kv', kv'.1 = kv.1 ∧ renamed m' kv.2 kv'.2) xs ys'.
Proof.
  intros Hrec Hnodup. induction rest as [|[k a] rest IH];
    intros seen m h ys Hsplit Hb Hinv Hx Hy Hseen.
  { exists m, h, ys. rewrite app_nil_r in Hsplit. by subst. }
  rewrite fmap_cons in Hb. apply Forall_cons in Hb as [Ha Hb].
  destruct (Hrec _ m h a Hinv Ha) as (m2 & h2 & a' & Hcall & Hinv2 & Hsub & Hpre & Ha').
  cbn [for_each]. unfold copy_dict_item at 1. cbn [fst snd].
  rewrite Hcall. cbn.
  assert (Hy2 : h2 !! y = Some (ODict ys)) by by eapply prefix_lookup_Some.
  unfold dict_store. rewrite Hy2. cbn.
  assert (Hx2 : m2 !! x = Some y) by by eapply lookup_weaken.
  assert (Hkeys : ys.*1 = seen.*1).
  { clear -Hseen. induction Hseen as [|???? [E _]]; [done|].
    rewrite !fmap_cons. congruence. }
  assert (Hk : k ∉ ys.*1).
  { rewrite Hkeys. subst xs. rewrite fmap_app, fmap_cons in Hnodup.
    apply NoDup_app in Hnodup as (_ & Hdisj & _).
    intros Hin. apply (Hdisj k Hin). left. }
  rewrite dict_set_fresh by done.
  destruct (IH (seen ++ [(k, a)]) m2 (<[y := ODict (ys ++ [(k, a')])]> h2)
              (ys ++ [(k, a')]))
    as (m' & h' & ys' & Hloop & Hinv' & Hsub' & Htake & Hy' & Hall).
  - by rewrite <-app_assoc.
  - done.
  - by apply copy_inv_fill.
  - done.
  - apply list_lookup_insert_eq. by eapply lookup_lt_Some.
  - apply Forall2_app; [|by constructor].
    eapply Forall2_impl; [done|]. simpl. intros ?? [??].
    eauto using renamed_weaken.
  - exists m', h', ys'. split; [done|]. split; [done|].
    split; [by etrans|]. split; [|done].
    rewrite Htake, take_insert_ge by done.
    destruct Hpre as [k' ->]. rewrite take_app_le; [done|].
    apply lookup_lt_Some in Hy. lia.
Qed.

Lemma deepcopy_spec h0 (n : nat) :
  dicts_wf h0 → copy_rec_spec h0 n (deepcopy (S n)).
Proof.
  intros Hwf. induction n as [|n IH]; intros pending m h v Hinv Hb.
  { destruct v; try done; eexists m, h, _; by repeat (split; [done|]). }
  destruct v as [| | | | |x];
    try by (eexists m, h, _; repeat (split; [done|])).
  rewrite deepcopy_S. destruct (m !! x) as [y|] eqn:Hx.
  { exists m, h, (VRef y). do 4 (split; [done|]). by exists y. }
  simpl in Hb. destruct (h0 !! x) as [o|] eqn:Ho; [|done].
  pose proof (ci_prefix _ _ _ _ Hinv) as Hpre.
  rewrite (prefix_lookup_Some _ _ _ _ Ho Hpre). cbv zeta.
  pose proof (copy_inv_enter h0 x pending m h) as Henter.
  assert (Hnew : ∀ o', (h ++ [o']) !! length h = Some o').
  { intros o'. by rewrite list_lookup_middle. }
  assert (Hmx : <[x := length h]> m !! x = Some (length h))
    by apply lookup_insert_eq.
  assert (Hfinish : ∀ m' h' o',
            copy_inv h0 (x :: pending) m' h' → <[x := length h]> m ⊆ m' →
            take (length h) h' = take (length h) (h ++ [o']) →
            ∀ o2, h' !! length h = Some o2 → copy_of m' o o2 →
            copy_inv h0 pending m' h' ∧ m ⊆ m' ∧ h `prefix_of` h'
            ∧ renamed m' (VRef x) (VRef (length h))).
  { intros m' h' o' Hinv' Hsub Htake o2 Ho2 Hcopy.
    assert (m' !! x = Some (length h)) by by eapply lookup_weaken.
    split; [by eapply copy_inv_leave|].
    split; [etrans; [by apply insert_subseteq|done]|].
    split; [|by exists (length h)].
    exists (drop (length h) h').
    rewrite <-(take_drop (length h) h') at 1.
    by rewrite Htake, take_app_length. }
  destruct o as [items|items].
  - destruct (copy_dict_loop h0 n (deepcopy (S n)) x (length h) pending items
                IH (Hwf _ _ Ho) items [] (<[x := length h]> m) (h ++ [ODict []]) [])
      as (m' & h' & ys' & Hloop & Hinv' & Hsub & Htake & Hy' & Hall);
      [done|done|by apply Henter|done|by apply Hnew|constructor|].
    rewrite Hloop. cbn. exists m', h', (VRef (length h)).
    split; [done|]. by eapply Hfinish.
  - destruct (copy_list_loop h0 n (deepcopy (S n)) x (length h) pending items
                IH items [] (<[x := length h]> m) (h ++ [OList []]) [])
      as (m' & h' & ys' & Hloop & Hinv' & Hsub & Htake & Hy' & Hall);
      [done|done|by apply Henter|done|by apply Hnew|constructor|].
    rewrite Hloop. cbn. exists m', h', (VRef (length h)).
    split; [done|]. by eapply Hfinish.
Qed.

Lemma copy_inv_start h0 : copy_inv h0 [] ∅ h0.
Proof. split; try done. Qed.

(** The copy nests as deep as the original. *)
Lemma copy_bounded h0 m h1 :
  copy_inv h0 [] m h1 →
  ∀ n v v', renamed m v v' → bounded n h0 v → bounded n h1 v'.
Proof.
  intros Hinv. induction n as [|n IH]; intros v v' Hren Hb.
  { destruct v; simpl in *; try done; by subst. }
  destruct v as [| | | | |x]; simpl in Hren; try by subst.
  destruct Hren as (y & Hx & ->).
  destruct (ci_done _ _ _ _ Hinv x y Hx) as (o & o' & Ho & Ho' & Hcopy);
    [apply not_elem_of_nil|].
  simpl in *. rewrite Ho in Hb. rewrite Ho'.
  apply copy_of_values in Hcopy.
  clear -Hcopy Hb IH. induction Hcopy; [constructor|].
  apply Forall_cons in Hb as [??]. constructor; eauto.
Qed.

(** The copy reads as the original does. *)
Lemma copy_read h0 m h1 :
  copy_inv h0 [] m h1 →
  ∀ n v v', renamed m v v' → read n h1 v' = read n h0 v.
Proof.
  intros Hinv. induction n as [|n IH]; intros v v' Hren; [done|].
  destruct v as [| | | | |x]; simpl in Hren; try by subst.
  destruct Hren as (y & Hx & ->).
  destruct (ci_done _ _ _ _ Hinv x y Hx) as (o & o' & Ho & Ho' & Hcopy);
    [apply not_elem_of_nil|].
  simpl. rewrite Ho, Ho'.
  destruct o as [xs|xs], o' as [ys|ys]; simpl in Hcopy; try done; f_equal.
  - apply Forall2_mapM_ext, Forall2_flip.
    eapply Forall2_impl; [done|]. simpl. intros [k a] [k' a'] [E R].
    simpl in *. subst. by rewrite (IH a a').
  - apply Forall2_mapM_ext, Forall2_flip.
    eapply Forall2_impl; [done|]. simpl. intros a a' R. by apply IH.
Qed.

(** The copy is made of new objects only. *)
Lemma copy_reach h0 m h1 v' l :
  copy_inv h0 [] m h1 → reach h1 v' l →
  (∃ v, renamed m v v') → (length h0 ≤ l)%nat.
Proof.
  intros Hinv. induction 1 as [y|y o' w l Hy Hin Hreach IH].
  - intros ([| | | | |x] & Hren); simpl in Hren; try done.
    destruct Hren as (y' & Hx & [= ->]). by apply (ci_range _ _ _ _ Hinv x y').
  - intros ([| | | | |x] & Hren); simpl in Hren; try done.
    destruct Hren as (y' & Hx & [= ->]).
    destruct (ci_done _ _ _ _ Hinv x y' Hx) as (o & o2 & Ho & Ho' & Hcopy);
      [apply not_elem_of_nil|].
    simplify_eq. apply IH.
    apply copy_of_values in Hcopy.
    apply list_elem_of_lookup_1 in Hin as [i Hi].
    destruct (Forall2_lookup_r _ _ _ _ _ Hcopy Hi) as (w0 & _ & Hw).
    by exists w0.
Qed.

(** ** Reading the store *)

Lemma read_S (n : nat) h v :
  read (S n) h v =
    match v with
    | VNone => Some JNull
    | VBool b => Some (JBool b)
    | VInt k => Some (JInt k)
    | VFloat bits => Some (JFloat bits)
    | VStr s => Some (JStr s)
    | VRef l =>
        match h !! l with
        | Some (OList items) => JList <$> mapM (read n h) items
        | Some (ODict items) =>
            JDict <$> mapM (λ kv, pair kv.1 <$> read n h kv.2) items
        | None => None
        end
    end.
Proof. done. Qed.

Lemma mapM_is_Some {A B} (f : A → option B) (xs : list A) :
  Forall (λ x, is_Some (f x)) xs → is_Some (mapM f xs).
Proof.
  induction 1 as [|x xs [y Hy] _ [ys Hys]]; [by eexists|].
  exists (y :: ys). apply mapM_Some. constructor; [done|]. by apply mapM_Some.
Qed.

Lemma read_total (n : nat) h v : bounded n h v → is_Some (read (S n) h v).
Proof.
  revert v. induction n as [|n IH]; intros v Hb.
  { destruct v; try done; by eexists. }
  destruct v as [| | | | |l]; try by eexists.
  rewrite read_S. simpl in Hb. destruct (h !! l) as [[items|items]|]; [| |done].
  - apply fmap_is_Some, mapM_is_Some. simpl in Hb.
    rewrite Forall_fmap in Hb. eapply Forall_impl; [exact Hb|].
    intros kv Hkv. by apply fmap_is_Some, IH.
  - apply fmap_is_Some, mapM_is_Some. eapply Forall_impl; [done|]. apply IH.
Qed.

(** Reading a bounded value looks at the objects of [h] only. *)
Lemma read_prefix (n : nat) h h' v :
  h `prefix_of` h' → bounded n h v → read (S n) h' v = read (S n) h v.
Proof.
  intros Hpre. revert v. induction n as [|n IH]; intros v Hb.
  { by destruct v. }
  destruct v as [| | | | |l]; try done.
  rewrite !(read_S (S n)). simpl in Hb.
  destruct (h !! l) as [o|] eqn:Hl; [|done].
  rewrite (prefix_lookup_Some _ _ _ _ Hl Hpre).
  destruct o as [items|items]; f_equal; apply Forall_mapM_ext.
  - simpl in Hb. rewrite Forall_fmap in Hb. eapply Forall_impl; [exact Hb|].
    intros kv Hkv. unfold compose in Hkv. by rewrite IH.
  - eapply Forall_impl; [done|]. apply IH.
Qed.

Lemma bounded_prefix (n : nat) h h' v :
  h `prefix_of` h' → bounded n h v → bounded n h' v.
Proof.
  intros Hpre. revert v. induction n as [|n IH]; intros v;
    destruct v as [| | | | |l]; try done.
  simpl. destruct (h !! l) as [o|] eqn:Hl; [|done].
  rewrite (prefix_lookup_Some _ _ _ _ Hl Hpre).
  intros Hall. eapply Forall_impl; [done|]. apply IH.
Qed.

Lemma prefix_of_lookup (h h2 : store) :
  (length h ≤ length h2)%nat →
  (∀ l, (l < length h)%nat → h2 !! l = h !! l) → h `prefix_of` h2.
Proof.
  intros Hlen Hsame. exists (drop (length h) h2).
  rewrite <-(take_drop (length h) h2) at 1. f_equal.
  apply list_eq. intros i. destruct (decide (i < length h)%nat).
  - rewrite lookup_take_lt by done. auto.
  - rewrite lookup_take_ge, lookup_ge_None_2 by lia. done.
Qed.

(** ** abridge *)

Lemma abridge_steps (fuel : nat) maxlen h data m h1 clone h2 :
  deepcopy fuel ∅ h data = Some (m, h1, clone) →
  trim fuel maxlen h1 clone = Some h2 →
  abridge fuel h data maxlen = Some (h2, clone).
Proof. intros H1 H2. unfold abridge. rewrite H1. simpl. by rewrite H2. Qed.

(** C9: on bounded data, [abridge] returns; the clone it returns is the deep
    copy of [data] (it reads as [data] does) on which [trim] has run, and
    every object that was in the store is left as it was. *)
Theorem abridge_spec (n : nat) (maxlen : Z) (h : store) (data : val) :
  dicts_wf h → bounded n h data →
  ∃ m h1 h2 clone t,
    deepcopy (S n) ∅ h data = Some (m, h1, clone)
    ∧ read (S n) h data = Some t
    ∧ read (S n) h1 clone = Some t
    ∧ trim (S n) maxlen h1 clone = Some h2
    ∧ abridge (S n) h data maxlen = Some (h2, clone)
    ∧ h `prefix_of` h2
    ∧ read (S n) h2 data = Some t
    ∧ (∀ l, data = VRef l → ∃ y, clone = VRef y ∧ (length h ≤ y)%nat).
Proof.
  intros Hwf Hb.
  destruct (deepcopy_spec h n Hwf [] ∅ h data (copy_inv_start h) Hb)
    as (m & h1 & clone & Hcopy & Hinv & _ & Hpre & Hren).
  destruct (read_total n h data Hb) as [t Ht].
  pose proof (copy_bounded h m h1 Hinv n data clone Hren Hb) as Hb1.
  destruct (trim_total n maxlen h1 clone Hb1) as (h2 & Htrim & Hok).
  assert (Hpre2 : h `prefix_of` h2).
  { apply prefix_of_lookup.
    - rewrite <-(Forall2_length _ _ _ Hok). by apply prefix_length.
    - intros l Hl. rewrite (trim_frame _ _ _ _ _ l Htrim).
      + destruct Hpre as [k ->]. by rewrite lookup_app_l.
      + intros Hreach. eapply copy_reach in Hreach; [|done|by exists data]. lia. }
  exists m, h1, h2, clone, t. split; [done|]. split; [done|].
  split; [by rewrite (copy_read h m h1 Hinv (S n) data clone Hren)|].
  split; [done|]. split; [by eapply abridge_steps|].
  split; [done|]. split; [by rewrite (read_prefix n h h2)|].
  intros l ->. destruct Hren as (y & Hy & ->). exists y. split; [done|].
  by apply (ci_range _ _ _ _ Hinv l y).
Qed.

Lemma abridge_spec_witness :
  let h := [ODict [(lit "a", VStr (lit "0123456789")); (lit "l", VRef 1%nat)];
            OList [VStr (lit "0123456789"); VNone]] in
  dicts_wf h ∧ bounded 2 h (VRef 0%nat) ∧
  ∃ h2 clone, abridge 3 h (VRef 0%nat) 6 = Some (h2, clone) ∧ h `prefix_of` h2.
Proof.
  intros h.
  assert (Hwf : dicts_wf h).
  { intros [|[|l]] items Hl; subst h; simpl in Hl; simplify_eq.
    apply NoDup_cons_2; [|apply NoDup_singleton].
    intros Hin%list_elem_of_singleton. discriminate Hin. }
  assert (Hb : bounded 2 h (VRef 0%nat)) by (simpl; repeat constructor).
  split; [exact Hwf|]. split; [exact Hb|].
  destruct (abridge_spec 2 6 h (VRef 0%nat) Hwf Hb)
    as (m & h1 & h2 & clone & t & _ & _ & _ & _ & Hrun & Hpre & _).
  exists h2, clone. split; [exact Hrun | exact Hpre].
Defined.

(** The clone is trimmed, the original is not; sharing inside the original
    is kept inside the clone. *)
Example abridge_example :
  let h := [ODict [(lit "a", VStr (lit "0123456789")); (lit "l", VRef 1%nat);
                   (lit "m", VRef 1%nat)];
            OList [VStr (lit "0123456789"); VNone]] in
  abridge 3 h (VRef 0%nat) 6
  = Some (h ++ [ODict [(lit "a", VStr (lit "0..789")); (lit "l", VRef 3%nat);
                       (lit "m", VRef 3%nat)];
                OList [VStr (lit "0123456789"); VNone]],
          VRef 2%nat).
Proof. vm_compute. reflexivity. Qed.

(** ** The objects of a JSON document *)

Lemma json_nested_ind (P : json → Prop) :
  P JNull → (∀ b, P (JBool b)) → (∀ n, P (JInt n)) →
  (∀ bits, P (JFloat bits)) → (∀ s, P (JStr s)) →
  (∀ items, Forall P items → P (JList items)) →
  (∀ items, Forall (λ kv, P kv.2) items → P (JDict items)) →
  ∀ t, P t.
Proof.
  intros Hnull Hbool Hint Hfloat Hstr Hlist Hdict.
  fix IH 1. intros [|b|n|bits|s|items|items].
  - exact Hnull.
  - apply Hbool.
  - apply Hint.
  - apply Hfloat.
  - apply Hstr.
  - apply Hlist. induction items as [|t items IHitems]; constructor.
    + apply IH.
    + exact IHitems.
  - apply Hdict. induction items as [|[k t] items IHitems]; constructor.
    + apply IH.
    + exact IHitems.
Qed.

Lemma alloc_all_ok {A} (f : A → store → store * val) (g : A → json)
    (items : list A) :
  Forall (λ a, ∀ h, h `prefix_of` (f a h).1
     ∧ ∀ h' n, (f a h).1 `prefix_of` h' → (depth (g a) ≤ n)%nat →
         read (S n) h' (f a h).2 = Some (g a) ∧ bounded n h' (f a h).2) items →
  ∀ h, h `prefix_of` (alloc_all f items h).1
     ∧ ∀ h' n, (alloc_all f items h).1 `prefix_of` h' →
         (foldr (λ a d, Nat.max (depth (g a)) d) O items ≤ n)%nat →
         Forall2 (λ a v, read (S n) h' v = Some (g a) ∧ bounded n h' v)
           items (alloc_all f items h).2.
Proof.
  induction 1 as [|a items Ha _ IH]; intros h; simpl.
  { split; [done|]. constructor. }
  destruct (Ha h) as [Hpre1 Hread1].
  destruct (f a h) as [h1 v] eqn:Ef. simpl in *.
  destruct (IH h1) as [Hpre2 Hread2].
  destruct (alloc_all f items h1) as [h2 vs] eqn:Eall. simpl in *.
  split; [by etrans|].
  intros h' n Hpre Hn. constructor.
  - apply Hread1; [by etrans|lia].
  - apply Hread2; [done|lia].
Qed.

Lemma Forall2_both {A B} (P Q : A → B → Prop) (xs : list A) (ys : list B) :
  Forall2 (λ x y, P x y ∧ Q x y) xs ys → Forall2 P xs ys ∧ Forall2 Q xs ys.
Proof. induction 1 as [|???? [??] _ [??]]; split; by constructor. Qed.

Lemma Forall2_right {A B} (Q : B → Prop) (xs : list A) (ys : list B) :
  Forall2 (λ _ y, Q y) xs ys → Forall Q ys.
Proof. induction 1; by constructor. Qed.

Lemma alloc_correct (t : json) : alloc_ok t.
Proof.
  induction t as [|b|k|bits|s|items IH|items IH] using json_nested_ind;
    try (intros h; split; [done|]; intros h' n _ _; split; [done|by destruct n]).
  - intros h. cbn [alloc].
    destruct (alloc_all_ok alloc id items IH h) as [Hpre Hread].
    destruct (alloc_all alloc items h) as [h1 vs]. cbn [fst snd] in *.
    split; [by apply prefix_app_r|].
    cbv [id] in Hread.
    intros h' n Hpre' Hn. cbn [depth] in Hn. destruct n as [|n]; [lia|].
    assert (h' !! length h1 = Some (OList vs)) as Hl.
    { eapply prefix_lookup_Some; [|done]. by rewrite list_lookup_middle. }
    destruct (Forall2_both _ _ _ _ (Hread h' n (prefix_app_l _ _ _ Hpre') ltac:(lia)))
      as [Hr Hb].
    split.
    + rewrite read_S, Hl. apply fmap_Some. exists items. split; [|done].
      apply mapM_Some. by apply Forall2_flip.
    + simpl. rewrite Hl. simpl. by eapply Forall2_right.
  - intros h. cbn [alloc].
    destruct (alloc_all_ok (λ kv, alloc kv.2) snd items IH h) as [Hpre Hread].
    destruct (alloc_all (λ kv, alloc kv.2) items h) as [h1 vs]. cbn [fst snd] in *.
    split; [by apply prefix_app_r|].
    intros h' n Hpre' Hn. cbn [depth] in Hn. destruct n as [|n]; [lia|].
    assert (h' !! length h1 = Some (ODict (zip items.*1 vs))) as Hl.
    { eapply prefix_lookup_Some; [|done]. by rewrite list_lookup_middle. }
    destruct (Forall2_both _ _ _ _ (Hread h' n (prefix_app_l _ _ _ Hpre') ltac:(lia)))
      as [Hr Hb].
    split.
    + rewrite read_S, Hl. apply fmap_Some. exists items. split; [|done].
      apply mapM_Some. clear -Hr.
      induction Hr as [|[k t] v items vs Hv _ IH]; [constructor|].
      rewrite fmap_cons. simpl. constructor; [|done].
      simpl in *. by rewrite Hv.
    + simpl. rewrite Hl. simpl.
      rewrite snd_zip; [by eapply Forall2_right|].
      rewrite length_fmap. apply Forall2_length in Hb. lia.
Qed.

(** ** extract and format_json *)

Section JsonFacts.

Variable json_loads : str → result json.
Variable json_dumps : json → str.

(** C7: [extract] returns [parsed[key]] when the body parses to an object
    that has the key, the fallback when the object lacks it, and lets the
    failure of a body that does not parse through; a body that parses to
    something other than an object raises [TypeError], which is not
    caught either. *)
Theorem extract_spec (resp : Response) (key : str) (fallback : json) :
  (∀ items v, json_loads (text resp) = Ok (JDict items) →
     dict_get items key = Some v →
     extract json_loads resp key fallback = Ok v)
  ∧ (∀ items, json_loads (text resp) = Ok (JDict items) →
     dict_get items key = None →
     extract json_loads resp key fallback = Ok fallback)
  ∧ (∀ msg, json_loads (text resp) = Raise (JSONDecodeError msg) →
     extract json_loads resp key fallback = Raise (JSONDecodeError msg))
  ∧ (∀ parsed, json_loads (text resp) = Ok parsed →
     (∀ items, parsed ≠ JDict items) →
     ∃ msg, extract json_loads resp key fallback = Raise (TypeError msg)).
Proof.
  unfold extract. repeat split.
  - intros items v -> Hget. simpl. by rewrite Hget.
  - intros items -> Hget. simpl. by rewrite Hget.
  - by intros msg ->.
  - intros parsed -> Hnot. destruct parsed; simpl; eauto.
    by destruct (Hnot items).
Qed.

Lemma format_json_untrimmed (fuel : nat) (text : str) (parsed : json) :
  json_loads text = Ok parsed → (depth parsed < fuel)%nat →
  format_json json_loads json_dumps fuel text 0 = Ok (json_dumps parsed).
Proof.
  intros Hparse Hfuel. unfold format_json. rewrite Hparse. cbn [bind_result].
  destruct (alloc_correct parsed []) as [_ Hread].
  destruct (alloc parsed []) as [h data]. cbn [fst snd] in Hread.
  destruct fuel as [|n]; [lia|].
  destruct (Hread h n) as [Hr _]; [done|lia|].
  rewrite Z.eqb_refl. cbn [bind_result budget]. by rewrite Hr.
Qed.

Lemma format_json_trimmed (fuel : nat) (text : str) (parsed : json) (maxlen : Z) :
  json_loads text = Ok parsed → (depth parsed < fuel)%nat → maxlen ≠ 0 →
  ∃ h' t', trim fuel 100 (alloc parsed []).1 (alloc parsed []).2 = Some h'
    ∧ read fuel h' (alloc parsed []).2 = Some t'
    ∧ format_json json_loads json_dumps fuel text maxlen = Ok (json_dumps t').
Proof.
  intros Hparse Hfuel Hmax. unfold format_json. rewrite Hparse. cbn [bind_result].
  destruct (alloc_correct parsed []) as [_ Hread].
  destruct (alloc parsed []) as [h data]. cbn [fst snd] in *.
  destruct fuel as [|n]; [lia|].
  destruct (Hread h n) as [_ Hb]; [done|lia|].
  destruct (trim_total n 100 h data Hb) as (h' & Htrim & Hok).
  destruct (read_total n h' data) as [t' Ht']; [by eapply bounded_store_ok|].
  exists h', t'. split; [done|]. split; [done|].
  destruct (Z.eqb_spec maxlen 0) as [|_]; [done|].
  rewrite Htrim. cbn [bind_result budget]. by rewrite Ht'.
Qed.

(** C6: with a [maxlen] that is not zero, [format_json] trims at the
    threshold 100, whatever [maxlen] is; with [maxlen] zero it does not
    trim. *)
Theorem format_json_threshold (fuel : nat) (text : str) (maxlen : Z) :
  (maxlen ≠ 0 →
     format_json json_loads json_dumps fuel text maxlen
     = format_json json_loads json_dumps fuel text 100)
  ∧ (∀ parsed, json_loads text = Ok parsed → (depth parsed < fuel)%nat →
       format_json json_loads json_dumps fuel text 0 = Ok (json_dumps parsed)
       ∧ (maxlen ≠ 0 →
            ∃ h' t',
              trim fuel 100 (alloc parsed []).1 (alloc parsed []).2 = Some h'
              ∧ read fuel h' (alloc parsed []).2 = Some t'
              ∧ format_json json_loads json_dumps fuel text maxlen
                = Ok (json_dumps t'))).
Proof.
  split.
  - intros Hmax. unfold format_json.
    destruct (Z.eqb_spec maxlen 0) as [|_]; done.
  - intros parsed Hparse Hfuel. split; [by apply format_json_untrimmed|].
    intros Hmax. by apply format_json_trimmed.
Qed.

End JsonFacts.

Lemma extract_spec_witness :
  let json_loads := λ _ : str, Ok (JDict [(lit "id", JInt 7)]) in
  let resp := {| text := lit "{'id': 7}" |} in
  json_loads (text resp) = Ok (JDict [(lit "id", JInt 7)])
  ∧ dict_get [(lit "id", JInt 7)] (lit "id") = Some (JInt 7)
  ∧ dict_get [(lit "id", JInt 7)] (lit "name") = None
  ∧ extract json_loads resp (lit "id") JNull = Ok (JInt 7)
  ∧ extract json_loads resp (lit "name") JNull = Ok JNull.
Proof.
  intros json_loads resp.
  split; [reflexivity|]. split; [reflexivity|]. split; [reflexivity|]. split.
  - destruct (extract_spec json_loads resp (lit "id") JNull) as (Hhit & _).
    apply (Hhit [(lit "id", JInt 7)] (JInt 7)); reflexivity.
  - destruct (extract_spec json_loads resp (lit "name") JNull) as (_ & Hmiss & _).
    apply (Hmiss [(lit "id", JInt 7)]); reflexivity.
Defined.

Lemma format_json_threshold_witness :
  let long := replicate 150 120%N in
  let json_loads := λ _ : str, Ok (JDict [(lit "a", JStr long)]) in
  let json_dumps := λ t, match t with JDict [(_, JStr s)] => s | _ => [] end in
  50 ≠ 0
  ∧ json_loads [] = Ok (JDict [(lit "a", JStr long)])
  ∧ (depth (JDict [(lit "a", JStr long)]) < 2)%nat
  ∧ format_json json_loads json_dumps 2 [] 50
    = format_json json_loads json_dumps 2 [] 100
  ∧ format_json json_loads json_dumps 2 [] 50 = Ok (squeeze long 100 3)
  ∧ len (squeeze long 100 3) = 100
  ∧ format_json json_loads json_dumps 2 [] 0 = Ok long.
Proof.
  intros long json_loads json_dumps.
  assert (Hmax : 50 ≠ 0) by discriminate.
  assert (Hfuel : (depth (JDict [(lit "a", JStr long)]) < 2)%nat) by (simpl; lia).
  destruct (format_json_threshold json_loads json_dumps 2 [] 50) as [Hsame Hrun].
  destruct (Hrun (JDict [(lit "a", JStr long)]) eq_refl Hfuel) as [Hzero _].
  split; [exact Hmax|]. split; [reflexivity|]. split; [exact Hfuel|].
  split; [exact (Hsame Hmax)|]. split; [vm_compute; reflexivity|].
  split; [vm_compute; reflexivity|]. exact Hzero.
Defined.

(** * Further properties *)

(** ** squeeze *)

Lemma squeeze_cramped_length (s : str) (maxlen tail : Z) :
  0 ≤ tail → maxlen - tail - 2 < 0 → maxlen < len s →
  maxlen < len (squeeze s maxlen tail).
Proof.
  intros Htail Hroom Hlong. unfold squeeze.
  destruct (Z.leb_spec (len s) maxlen) as [?|_]; [lia|].
  rewrite !len_app. change (len (lit "..")) with 2.
  pose proof (len_nonneg (slice_to s (maxlen - tail - 2))) as Hfirst.
  destruct (Z.eqb_spec tail 0) as [->|Hne].
  - change (len []) with 0. lia.
  - unfold slice_from, slice_index.
    destruct (Z.ltb_spec (- tail) 0); [|lia].
    unfold len in *. rewrite length_drop. lia.
Qed.

(** X1: for a tail that is not negative, the output of [squeeze] fits in
    [maxlen] exactly when the input already fits or there is room for the
    marker and the tail ([maxlen - tail - 2 >= 0]); without that room the
    output of an over-long input is longer than [maxlen]. *)
Theorem squeeze_fits_iff (s : str) (maxlen tail : Z) :
  0 ≤ tail →
  (len (squeeze s maxlen tail) ≤ maxlen
   ↔ len s ≤ maxlen ∨ maxlen - tail - 2 >= 0).
Proof.
  intros Htail. split.
  - intros Hfit. destruct (Z.le_gt_cases (len s) maxlen) as [?|Hlong]; [by left|].
    right. destruct (Z.lt_ge_cases (maxlen - tail - 2) 0) as [Hroom|?]; [|lia].
    pose proof (squeeze_cramped_length s maxlen tail Htail Hroom Hlong). lia.
  - intros [Hfit|Hroom].
    + by rewrite squeeze_fits.
    + destruct (Z.le_gt_cases (len s) maxlen) as [?|Hlong].
      * by rewrite squeeze_fits.
      * rewrite squeeze_long_length by done. lia.
Qed.

Lemma squeeze_fits_iff_witness :
  0 ≤ 3 ∧
  (len (squeeze (lit "0123456789") 4 3) ≤ 4
   ↔ len (lit "0123456789") ≤ 4 ∨ 4 - 3 - 2 >= 0).
Proof. split; [lia|]. apply (squeeze_fits_iff (lit "0123456789") 4 3). lia. Defined.

(** X2: squeezing what has been squeezed changes nothing, when the tail is
    not negative and [maxlen - tail - 2 >= 0]. *)
Theorem squeeze_idempotent (s : str) (maxlen tail : Z) :
  0 ≤ tail → maxlen - tail - 2 >= 0 →
  squeeze (squeeze s maxlen tail) maxlen tail = squeeze s maxlen tail.
Proof.
  intros Htail Hroom. apply squeeze_fits.
  destruct (Z.le_gt_cases (len s) maxlen) as [?|Hlong].
  - by rewrite squeeze_fits.
  - rewrite squeeze_long_length by done. lia.
Qed.

Lemma squeeze_idempotent_witness :
  0 ≤ 2 ∧ 8 - 2 - 2 >= 0 ∧
  squeeze (squeeze (lit "abcdefghij") 8 2) 8 2 = squeeze (lit "abcdefghij") 8 2.
Proof.
  split; [lia|]. split; [lia|].
  apply (squeeze_idempotent (lit "abcdefghij") 8 2); lia.
Defined.

(** ** vislen *)

Lemma match_color_tests_eq (s : str) : match_color s = match_color_tests s.
Proof.
  destruct s as [|c1 s]; [done|].
  split_char c1; try by destruct s.
  destruct s as [|c2 rest]; [done|].
  split_char c2; try done.
  cbn. destruct (digits1 rest) as [[|c3 rest']|]; try done.
  split_char c3; try done.
  destruct (digits1 rest') as [[|c4 rest'']|]; try done.
  split_char c4; done.
Qed.





Lemma strip_color_length (skip : nat) (s : str) :
  (length (strip_color skip s) ≤ length s)%nat.
Proof.
  revert skip. induction s as [|c s IH]; intros skip; [done|].
  cbn [strip_color length].
  destruct skip as [|k].
  - destruct (match_color (c :: s)) as [after|].
    + etrans; [apply IH|lia].
    + cbn [length]. specialize (IH 0%nat). lia.
  - etrans; [apply IH|lia].
Qed.

(** X3: the visible length of a string is at most its length. *)
Theorem vislen_le_len (s : str) : 0 ≤ vislen s ≤ len s.
Proof.
  unfold vislen, len. pose proof (strip_color_length 0 s). lia.
Qed.

Lemma match_color_no_esc (c : char) (s : str) :
  c ≠ 27%N → match_color (c :: s) = None.
Proof.
  intros Hc. rewrite match_color_tests_eq. unfold match_color_tests.
  destruct s as [|c2 rest]; [done|].
  destruct (N.eqb_spec c 27); [done|]. done.
Qed.

Lemma strip_color_no_esc (a b : str) :
  Forall (λ c, c ≠ 27%N) a → strip_color 0 (a ++ b) = a ++ strip_color 0 b.
Proof.
  induction 1 as [|c a Hc _ IH]; [done|].
  cbn [app strip_color]. rewrite match_color_no_esc by done. by rewrite IH.
Qed.

(** X4: a string without the escape character is all visible. *)
Theorem vislen_no_escape (s : str) :
  Forall (λ c, c ≠ 27%N) s → vislen s = len s.
Proof.
  intros Hs. unfold vislen.
  rewrite <-(app_nil_r s) at 1. by rewrite strip_color_no_esc, app_nil_r.
Qed.

Lemma vislen_no_escape_witness :
  Forall (λ c, c ≠ 27%N) (lit "hello") ∧ vislen (lit "hello") = 5.
Proof.
  assert (H : Forall (λ c, c ≠ 27%N) (lit "hello")) by (repeat constructor; discriminate).
  split; [exact H|]. apply (vislen_no_escape (lit "hello") H).
Defined.

Lemma skip_digits_number (ds rest : str) (c : char) :
  Forall (λ c, is_digit c = true) ds → is_digit c = false →
  skip_digits (ds ++ c :: rest) = c :: rest.
Proof.
  intros Hds Hc. induction Hds as [|d ds Hd _ IH]; simpl.
  - by rewrite Hc.
  - by rewrite Hd.
Qed.

Lemma digits1_number (ds rest : str) (c : char) :
  is_number ds → is_digit c = false →
  digits1 (ds ++ c :: rest) = Some (c :: rest).
Proof.
  intros [Hne Hds] Hc. destruct ds as [|d ds]; [done|].
  apply Forall_cons in Hds as [Hd Hds]. simpl. rewrite Hd.
  by rewrite skip_digits_number.
Qed.

Lemma match_color_code (a : str) (b : option str) (rest : str) :
  is_number a → from_option is_number True b →
  match_color (color_code a b ++ rest) = Some rest.
Proof.
  intros Ha Hb. unfold color_code. rewrite <-!app_assoc.
  cbn [app match_color]. destruct b as [b|]; simpl in Hb.
  - cbn [app]. rewrite digits1_number by done.
    by rewrite digits1_number.
  - cbn [app]. by rewrite digits1_number.
Qed.

Lemma strip_color_skip (x rest : str) :
  strip_color (length x) (x ++ rest) = strip_color 0 rest.
Proof. induction x as [|c x IH]; [done|]. simpl. exact IH. Qed.

Lemma strip_color_code (a : str) (b : option str) (rest : str) :
  is_number a → from_option is_number True b →
  strip_color 0 (color_code a b ++ rest) = strip_color 0 rest.
Proof.
  intros Ha Hb.
  pose proof (match_color_code a b rest Ha Hb) as Hm.
  destruct (color_code a b) as [|c code] eqn:Ecode; [done|].
  cbn [app] in *. cbn [strip_color]. rewrite Hm.
  replace (length (c :: code ++ rest) - length rest - 1)%nat with (length code)
    by (simpl; rewrite length_app; lia).
  apply strip_color_skip.
Qed.

(** X5: a colour code in front of a string adds nothing to its visible
    length, and a string without the escape character that is wrapped in
    two colour codes has its own length as visible length. *)
Theorem vislen_color_code (a a' : str) (b b' : option str) (s : str) :
  is_number a → from_option is_number True b →
  is_number a' → from_option is_number True b' →
  vislen (color_code a b ++ s) = vislen s
  ∧ (Forall (λ c, c ≠ 27%N) s →
     vislen (color_code a b ++ s ++ color_code a' b') = len s).
Proof.
  intros Ha Hb Ha' Hb'. unfold vislen. split.
  - by rewrite strip_color_code.
  - intros Hs. rewrite strip_color_code, strip_color_no_esc by done.
    rewrite <-(app_nil_r (color_code a' b')), strip_color_code by done.
    by rewrite app_nil_r.
Qed.

Lemma vislen_color_code_witness :
  is_number (lit "31") ∧ is_number (lit "0") ∧
  vislen (color_code (lit "31") None ++ lit "hello" ++ color_code (lit "0") None) = 5.
Proof.
  assert (H31 : is_number (lit "31")) by (split; [discriminate|by repeat constructor]).
  assert (H0 : is_number (lit "0")) by (split; [discriminate|by repeat constructor]).
  split; [exact H31|]. split; [exact H0|].
  destruct (vislen_color_code (lit "31") (lit "0") None None (lit "hello") H31 I H0 I)
    as [_ Hwrap].
  apply Hwrap. repeat constructor; discriminate.
Defined.

(** ** pad *)














(** ** make_header *)

Section MoreHeaderFacts.

Variable black_on_cyan : str → str.
Variable log_level_str : str → result str.


End MoreHeaderFacts.


(** ** override and optional *)

Lemma first_not_none_app (xs ys : list val) :
  first_not_none (xs ++ ys)
  = if is_none (first_not_none xs) then first_not_none ys else first_not_none xs.
Proof.
  induction xs as [|x xs IH]; [done|]. simpl.
  destruct (is_none x) eqn:E; [done|]. by rewrite E.
Qed.

(** X9: the arguments of [override] are layers: the arguments after a point
    decide, and only when all of them are [None] do the arguments before it
    count. *)
Theorem override_app (lower upper : list val) :
  override (lower ++ upper)
  = if is_none (override upper) then override lower else override upper.
Proof. unfold override. by rewrite reverse_app, first_not_none_app. Qed.

Lemma first_not_none_is_none (xs : list val) :
  first_not_none xs = VNone ↔ Forall (λ x, x = VNone) xs.
Proof.
  induction xs as [|x xs IH]; simpl; [by split|].
  rewrite Forall_cons. destruct x; simpl; try tauto; split; try done;
    by intros [? _].
Qed.

(** X10: [override] returns [None] only when every argument is [None]. *)
Theorem override_none_iff (args : list val) :
  override args = VNone ↔ Forall (λ x, x = VNone) args.
Proof.
  unfold override. by rewrite first_not_none_is_none, Forall_reverse.
Qed.

(** X11: [optional(x, y)] on top of an override chain switches [x] off with
    [y]: the chain below decides unless both [x] and [y] are not [None]. *)
Theorem override_optional (args : list val) (x y : val) :
  override (args ++ [optional x y])
  = if is_none x || is_none y then override args else x.
Proof.
  unfold override, optional. rewrite reverse_app, first_not_none_app.
  destruct y; simpl; try by rewrite orb_true_r.
  all: rewrite orb_false_r; by destruct x.
Qed.

(** ** plural *)

(** X12: [plural] returns the word itself for every count up to 1, zero and
    negative counts included, and the word followed by the suffix otherwise:
    the result is the bare word exactly when the count is at most 1 or the
    suffix is empty, and it always begins with the word. *)
Theorem plural_bare_iff (word : str) (count : Z) (suffix : str) :
  (plural word count suffix = word ↔ count ≤ 1 ∨ suffix = [])
  ∧ take (length word) (plural word count suffix) = word.
Proof.
  unfold plural. destruct (Z.ltb_spec 1 count) as [Hmany|Hfew]; split.
  - split.
    + intros Heq. right. rewrite <-(app_nil_r word) in Heq at 2.
      by apply app_inv_head in Heq.
    + intros [? | ->]; [lia|by rewrite app_nil_r].
  - by rewrite take_app_length.
  - split; [by left|done].
  - by rewrite take_ge.
Qed.

(** ** get_transaction_id *)

Section TransactionFacts.

Variable json_loads : str → result json.

(** X13: [get_transaction_id] is [extract] at the key [transaction_id] with
    fallback [None]: for a body that parses to an object it returns the
    value under that key, and [None] when the key is missing; every other
    failure is raised as [extract] raises it. *)
Theorem get_transaction_id_extract (response : Response) :
  get_transaction_id json_loads response
    = extract json_loads response (lit "transaction_id") JNull
  ∧ (∀ items, json_loads (text response) = Ok (JDict items) →
       get_transaction_id json_loads response
       = Ok (default JNull (dict_get items (lit "transaction_id"))))
  ∧ (∀ e, json_loads (text response) = Raise e →
       (∀ k, e ≠ KeyError k) →
       get_transaction_id json_loads response = Raise e).
Proof.
  split; [done|]. unfold get_transaction_id. split.
  - intros items ->. simpl. by destruct (dict_get items _).
  - intros e -> Hne. simpl. destruct e; try done. by destruct (Hne key).
Qed.

End TransactionFacts.

Lemma get_transaction_id_extract_witness :
  let json_loads := λ _ : str, Ok (JDict [(lit "transaction_id", JStr (lit "ab12"))]) in
  let response := {| text := [] |} in
  json_loads (text response) = Ok (JDict [(lit "transaction_id", JStr (lit "ab12"))])
  ∧ get_transaction_id json_loads response = Ok (JStr (lit "ab12")).
Proof.
  intros json_loads response. split; [reflexivity|].
  destruct (get_transaction_id_extract json_loads response) as (_ & Hobj & _).
  apply (Hobj _ eq_refl).
Defined.

(** ** fetch *)

Lemma dict_get_app {V} (a b : list (str * V)) (k : str) :
  dict_get (a ++ b) k
  = match dict_get a k with Some v => Some v | None => dict_get b k end.
Proof.
  induction a as [|[k0 v0] a IH]; [done|]. simpl. by case_decide.
Qed.

Lemma dict_get_None {V} (items : list (str * V)) (k : str) :
  dict_get items k = None ↔ k ∉ items.*1.
Proof.
  induction items as [|[k0 v0] items IH]; simpl.
  - split; [intros _; apply not_elem_of_nil|done].
  - rewrite not_elem_of_cons. case_decide; [|by rewrite IH; intuition].
    split; [done|]. by intros [? _].
Qed.

Lemma dict_get_set {V} (items : list (str * V)) (k k' : str) (v : V) :
  dict_get (dict_set items k v) k'
  = if decide (k = k') then Some v else dict_get items k'.
Proof.
  induction items as [|[k0 v0] items IH]; simpl.
  - by repeat case_decide.
  - repeat (case_decide; simpl; subst); try done; congruence.
Qed.

Lemma dict_of_pairs_get {V} (acc pairs : list (str * V)) (k : str) :
  dict_get (foldl (λ d kv, dict_set d kv.1 kv.2) acc pairs) k
  = match dict_get (reverse pairs) k with
    | Some v => Some v
    | None => dict_get acc k
    end.
Proof.
  revert acc. induction pairs as [|[k0 v0] pairs IH]; intros acc; [done|].
  simpl. rewrite IH, reverse_cons, dict_get_app, dict_get_set. simpl.
  destruct (dict_get (reverse pairs) k); [done|]. by case_decide.
Qed.

Lemma fetch_pairs_ok {V} (data : list (str * V)) (keys : list str) pairs :
  fetch_pairs data keys = Ok pairs →
  pairs.*1 = keys ∧ Forall (λ kv, dict_get data kv.1 = Some kv.2) pairs.
Proof.
  revert pairs. induction keys as [|k keys IH]; intros pairs; simpl.
  - by intros [= <-].
  - destruct (dict_get data k) as [v|] eqn:Hk; [|done].
    destruct (fetch_pairs data keys) as [rest|]; [|done]. simpl.
    intros [= <-]. destruct (IH rest eq_refl) as [Hkeys Hall].
    split; [simpl; by f_equal|]. by constructor.
Qed.

Lemma fetch_pairs_present {V} (data : list (str * V)) (keys : list str) :
  Forall (λ k, is_Some (dict_get data k)) keys →
  ∃ pairs, fetch_pairs data keys = Ok pairs.
Proof.
  induction 1 as [|k keys [v Hv] _ [rest IH]]; simpl; [by eexists|].
  rewrite Hv, IH. simpl. by eexists.
Qed.

Lemma fetch_pairs_missing {V} (data : list (str * V)) (pre post : list str) k :
  Forall (λ k, is_Some (dict_get data k)) pre → dict_get data k = None →
  fetch_pairs data (pre ++ k :: post) = Raise (KeyError k).
Proof.
  intros Hpre Hk. induction Hpre as [|k0 pre [v Hv] _ IH]; simpl.
  - by rewrite Hk.
  - by rewrite Hv, IH.
Qed.

(** X14: [fetch] returns a dict when [data] has every key asked for, and
    otherwise raises [KeyError] for the first key in [keys] that [data]
    lacks. *)
Theorem fetch_missing_key {V} (data : list (str * V)) (keys : list str) :
  (Forall (λ k, is_Some (dict_get data k)) keys → ∃ d, fetch data keys = Ok d)
  ∧ (∀ pre k post, keys = pre ++ k :: post →
       Forall (λ k, is_Some (dict_get data k)) pre → dict_get data k = None →
       fetch data keys = Raise (KeyError k)).
Proof.
  unfold fetch. split.
  - intros [pairs ->]%fetch_pairs_present. simpl. by eexists.
  - intros pre k post -> Hpre Hk. by rewrite fetch_pairs_missing.
Qed.

Lemma fetch_missing_key_witness :
  let data := [(lit "a", 1); (lit "b", 2)] in
  Forall (λ k, is_Some (dict_get data k)) [lit "b"] ∧
  dict_get data (lit "c") = None ∧
  fetch data [lit "b"; lit "c"; lit "d"] = Raise (KeyError (lit "c")).
Proof.
  intros data.
  assert (Hpre : Forall (λ k, is_Some (dict_get data k)) [lit "b"])
    by (repeat constructor; by eexists).
  split; [exact Hpre|]. split; [reflexivity|].
  destruct (fetch_missing_key data [lit "b"; lit "c"; lit "d"]) as [_ Hmiss].
  apply (Hmiss [lit "b"] (lit "c") [lit "d"] eq_refl Hpre eq_refl).
Defined.

Lemma fetch_get {V} (data : list (str * V)) (keys : list str) d k :
  fetch data keys = Ok d →
  dict_get d k = if decide (k ∈ keys) then dict_get data k else None.
Proof.
  unfold fetch. destruct (fetch_pairs data keys) as [pairs|] eqn:Hpairs; [|done].
  simpl. intros [= <-]. apply fetch_pairs_ok in Hpairs as [<- Hall].
  unfold dict_of_pairs. rewrite dict_of_pairs_get. simpl.
  destruct (dict_get (reverse pairs) k) as [v|] eqn:Hk.
  - apply dict_get_in in Hk. rewrite elem_of_reverse in Hk.
    pose proof (list_elem_of_fmap_2 fst _ _ Hk) as Hkey. simpl in Hkey.
    rewrite decide_True by done.
    rewrite Forall_forall in Hall. symmetry. apply (Hall _ Hk).
  - apply dict_get_None in Hk. rewrite fmap_reverse, elem_of_reverse in Hk.
    by rewrite decide_False.
Qed.

(** X15: the dict that [fetch] returns has, under each key asked for, the
    value that [data] has there, and has no other key. *)
Theorem fetch_lookup {V} (data : list (str * V)) (keys : list str) d :
  fetch data keys = Ok d →
  ∀ k, dict_get d k = if decide (k ∈ keys) then dict_get data k else None.
Proof. intros Hd k. by apply fetch_get. Qed.

Lemma fetch_lookup_witness :
  let data := [(lit "a", 1); (lit "b", 2); (lit "c", 3)] in
  fetch data [lit "c"; lit "a"] = Ok [(lit "c", 3); (lit "a", 1)] ∧
  dict_get [(lit "c", 3); (lit "a", 1)] (lit "b") = None.
Proof.
  intros data.
  assert (Hd : fetch data [lit "c"; lit "a"] = Ok [(lit "c", 3); (lit "a", 1)])
    by reflexivity.
  split; [exact Hd|].
  rewrite (fetch_lookup data _ _ Hd (lit "b")). reflexivity.
Defined.

Lemma dict_of_pairs_distinct {V} (acc pairs : list (str * V)) :
  NoDup (acc ++ pairs).*1 →
  foldl (λ d kv, dict_set d kv.1 kv.2) acc pairs = acc ++ pairs.
Proof.
  revert acc. induction pairs as [|[k v] pairs IH]; intros acc Hnd; simpl.
  - by rewrite app_nil_r.
  - rewrite dict_set_fresh.
    + rewrite IH; rewrite <-app_assoc; done.
    + rewrite fmap_app, fmap_cons in Hnd.
      apply NoDup_app in Hnd as (_ & Hdisj & _).
      intros Hin. apply (Hdisj k Hin). left.
Qed.

Lemma fetch_pairs_own_keys {V} (seen rest : list (str * V)) :
  NoDup (seen ++ rest).*1 →
  fetch_pairs (seen ++ rest) rest.*1 = Ok rest.
Proof.
  revert seen. induction rest as [|[k v] rest IH]; intros seen Hnd; [done|].
  rewrite fmap_cons. cbn [fetch_pairs fst]. rewrite dict_get_middle.
  - specialize (IH (seen ++ [(k, v)])). rewrite <-app_assoc in IH.
    cbn [app] in IH. by rewrite IH.
  - rewrite fmap_app, fmap_cons in Hnd.
    apply NoDup_app in Hnd as (_ & Hdisj & _).
    intros Hin. apply (Hdisj k Hin). left.
Qed.

(** X16: for keys that are distinct, [fetch] returns the keys in the order
    asked for; and fetching all the keys of a dict, in its own order, gives
    the dict back. *)
Theorem fetch_distinct_keys {V} (data : list (str * V)) (keys : list str) :
  (∀ d, NoDup keys → fetch data keys = Ok d → d.*1 = keys)
  ∧ (NoDup data.*1 → fetch data data.*1 = Ok data).
Proof.
  unfold fetch. split.
  - intros d Hnd. destruct (fetch_pairs data keys) as [pairs|] eqn:Hpairs; [|done].
    simpl. intros [= <-]. apply fetch_pairs_ok in Hpairs as [<- _].
    unfold dict_of_pairs. by rewrite (dict_of_pairs_distinct []).
  - intros Hnd. pose proof (fetch_pairs_own_keys [] data Hnd) as Hown.
    cbn [app] in Hown. rewrite Hown. simpl.
    unfold dict_of_pairs. by rewrite (dict_of_pairs_distinct []).
Qed.

Lemma fetch_distinct_keys_witness :
  let data := [(lit "a", 1); (lit "b", 2)] in
  NoDup data.*1 ∧ fetch data data.*1 = Ok data.
Proof.
  intros data.
  assert (Hnd : NoDup data.*1).
  { apply NoDup_cons_2; [|apply NoDup_singleton].
    intros Hin%list_elem_of_singleton. discriminate Hin. }
  split; [exact Hnd|].
  destruct (fetch_distinct_keys data []) as [_ Hall]. exact (Hall Hnd).
Defined.

Lemma fetch_pairs_ext {V} (data data' : list (str * V)) (keys : list str) :
  Forall (λ k, dict_get data' k = dict_get data k) keys →
  fetch_pairs data' keys = fetch_pairs data keys.
Proof.
  induction 1 as [|k keys Hk _ IH]; [done|]. simpl. by rewrite Hk, IH.
Qed.

(** X17: fetching from what was fetched is fetching from the original, for
    keys among those fetched first. *)
Theorem fetch_fetch {V} (data : list (str * V)) (keys keys' : list str) d :
  fetch data keys = Ok d → keys' ⊆ keys →
  fetch d keys' = fetch data keys'.
Proof.
  intros Hd Hsub. unfold fetch. f_equal.
  apply fetch_pairs_ext, Forall_forall. intros k Hk.
  rewrite (fetch_get _ _ _ k Hd). by rewrite decide_True by by apply Hsub.
Qed.

Lemma fetch_fetch_witness :
  let data := [(lit "a", 1); (lit "b", 2); (lit "c", 3)] in
  fetch data [lit "c"; lit "a"] = Ok [(lit "c", 3); (lit "a", 1)] ∧
  ([lit "a"] : list str) ⊆ [lit "c"; lit "a"] ∧
  fetch [(lit "c", 3); (lit "a", 1)] [lit "a"] = fetch data [lit "a"].
Proof.
  intros data.
  assert (Hd : fetch data [lit "c"; lit "a"] = Ok [(lit "c", 3); (lit "a", 1)])
    by reflexivity.
  assert (Hsub : ([lit "a"] : list str) ⊆ [lit "c"; lit "a"]).
  { intros k ->%list_elem_of_singleton. right. left. }
  split; [exact Hd|]. split; [exact Hsub|].
  apply (fetch_fetch data _ _ _ Hd Hsub).
Defined.

(** ** trim: what it leaves alone *)

(** X18: on bounded data [trim] returns, and an object of the store that
    is neither [data] nor below it is left as it was. *)
Theorem trim_leaves_unreachable (n : nat) (maxlen : Z) (h : store) (data : val) :
  bounded n h data →
  ∃ h', trim (S n) maxlen h data = Some h'
      ∧ ∀ l, ¬ reach h data l → h' !! l = h !! l.
Proof.
  intros Hb. destruct (trim_total n maxlen h data Hb) as (h' & Hrun & _).
  exists h'. split; [done|]. intros l Hl. by eapply trim_frame.
Qed.

Lemma trim_leaves_unreachable_witness :
  let h := [ODict [(lit "a", VStr (lit "0123456789"))];
            ODict [(lit "b", VStr (lit "0123456789"))]] in
  bounded 1 h (VRef 0%nat) ∧
  ∃ h', trim 2 6 h (VRef 0%nat) = Some h'
      ∧ h' !! 1%nat = Some (ODict [(lit "b", VStr (lit "0123456789"))]).
Proof.
  intros h.
  assert (Hb : bounded 1 h (VRef 0%nat)) by (simpl; repeat constructor).
  split; [exact Hb|].
  destruct (trim_leaves_unreachable 1 6 h (VRef 0%nat) Hb) as (h' & Hrun & Hframe).
  exists h'. split; [exact Hrun|]. rewrite Hframe; [reflexivity|].
  intros Hreach. inversion Hreach as [|? o v ? Hl Hin Hsub]; subst.
  injection Hl as <-. simpl in Hin.
  apply list_elem_of_singleton in Hin as ->. inversion Hsub.
Defined.

Lemma reach_inv h l l' :
  reach h (VRef l) l' →
  l' = l ∨ ∃ o v, h !! l = Some o ∧ v ∈ obj_values o ∧ reach h v l'.
Proof. inversion 1; subst; [by left|right; eauto]. Qed.

Lemma trimmed_scalar maxlen h v : is_container v = false → trimmed maxlen h v.
Proof. intros Hv l items s Hreach. apply reach_ref in Hreach. congruence. Qed.

Lemma trimmed_child maxlen h l o v :
  trimmed maxlen h (VRef l) → h !! l = Some o → v ∈ obj_values o →
  trimmed maxlen h v.
Proof.
  intros Ht Hl Hin l' items s Hreach. apply Ht. by eapply reach_step.
Qed.

Lemma trim_nothing_to_do (n : nat) (maxlen : Z) (h : store) (data : val) :
  bounded n h data → trimmed maxlen h data →
  trim (S n) maxlen h data = Some h.
Proof.
  revert data. induction n as [|n IH]; intros data Hb Ht.
  { by destruct data. }
  destruct data as [| | | | |l]; try done.
  rewrite trim_S.
  destruct (h !! l) as [[items|items]|] eqn:Hl; [| |by simpl in Hb; rewrite Hl in Hb].
  - destruct (for_each_total (λ h1, h1 = h)
               (trim_dict_key (trim (S n) maxlen) maxlen l) items.*1 h)
      as (h' & -> & ->); [done| |done].
    intros ? key Hkey ->. exists h. split; [|done].
    unfold trim_dict_key. rewrite Hl.
    destruct (dict_get_elem items key Hkey) as [v Hget]. rewrite Hget.
    pose proof (dict_get_value _ _ _ Hget) as Hin.
    destruct (is_container v) eqn:Hc.
    + apply IH; [by eapply bounded_children|by eapply trimmed_child].
    + destruct v as [| | | |s|]; try done.
      destruct (Z.ltb_spec maxlen (len s)) as [Hlong|]; [|done].
      pose proof (Ht l items s (reach_here _ _) Hl Hin). lia.
  - destruct (for_each_total (λ st1 : store * val, st1.1 = h)
               (trim_list_item (trim (S n) maxlen) maxlen l)
               (seq 0 (length items)) (h, VNone))
      as (st & -> & Hst); [done| |by simpl; rewrite Hst].
    intros [h1 x] i _ Hh1. simpl in Hh1. subst h1.
    unfold trim_list_item. cbn [fst]. rewrite Hl.
    destruct (items !! i) as [item|] eqn:Hi;
      [|eexists; split; reflexivity].
    pose proof (list_elem_of_lookup_2 _ _ _ Hi) as Hin.
    destruct (is_container item) eqn:Hc.
    + rewrite IH; [|by eapply bounded_children|by eapply trimmed_child].
      eexists; split; reflexivity.
    + destruct item as [| | | |s|]; try (eexists; split; reflexivity).
      destruct (maxlen <? len s); eexists; split; reflexivity.
Qed.

(** X19: when no string value of a dict at or below [data] is longer than
    [maxlen], [trim] changes nothing in the store. *)
Theorem trim_short_strings_unchanged (n : nat) (maxlen : Z) (h : store)
    (data : val) :
  bounded n h data → trimmed maxlen h data →
  trim (S n) maxlen h data = Some h.
Proof. apply trim_nothing_to_do. Qed.

Lemma trim_short_strings_unchanged_witness :
  let h := [ODict [(lit "a", VStr (lit "0123456789")); (lit "l", VRef 1%nat)];
            OList [VStr (lit "a string in a list can be long")]] in
  bounded 2 h (VRef 0%nat) ∧ trimmed 10 h (VRef 0%nat) ∧
  trim 3 10 h (VRef 0%nat) = Some h.
Proof.
  intros h.
  assert (Hb : bounded 2 h (VRef 0%nat)) by (simpl; repeat constructor).
  assert (Ht : trimmed 10 h (VRef 0%nat)).
  { intros [|[|l]] items s _ Hl Hin; subst h; simpl in Hl; simplify_eq.
    simpl in Hin. apply elem_of_cons in Hin as [Hs|Hin].
    - injection Hs as ->. vm_compute. discriminate.
    - apply list_elem_of_singleton in Hin. discriminate Hin. }
  split; [exact Hb|]. split; [exact Ht|].
  apply (trim_short_strings_unchanged 2 10 h (VRef 0%nat) Hb Ht).
Defined.

(** ** trim with a threshold of at least 5 *)

Lemma slot_cut_ok maxlen v v' : slot_cut maxlen v v' → slot_ok maxlen v v'.
Proof. intros [->|(s & s' & -> & ? & -> & _)]; [by left|right; eauto]. Qed.

Lemma obj_cut_ok maxlen o o' : obj_cut maxlen o o' → obj_ok maxlen o o'.
Proof.
  destruct o, o'; simpl; try done. intros H.
  eapply Forall2_impl; [done|]. simpl. intros ?? [??]. eauto using slot_cut_ok.
Qed.

Lemma store_cut_ok maxlen h h' : store_cut maxlen h h' → store_ok maxlen h h'.
Proof. intros H. eapply Forall2_impl; [done|]. apply obj_cut_ok. Qed.

Lemma slot_cut_trans maxlen v1 v2 v3 :
  slot_cut maxlen v1 v2 → slot_cut maxlen v2 v3 → slot_cut maxlen v1 v3.
Proof.
  intros [->|(s & s' & -> & Hlong & -> & Hfit)] H23; [done|].
  destruct H23 as [->|(t & t' & [= <-] & ? & _)]; [right; eauto 10|lia].
Qed.

Lemma obj_cut_refl maxlen o : obj_cut maxlen o o.
Proof.
  destruct o; simpl; [|done].
  apply Forall2_same_length_lookup_2; [done|].
  intros i kv kv' H1 H2. simplify_eq. split; [done|by left].
Qed.

Lemma obj_cut_trans maxlen o1 o2 o3 :
  obj_cut maxlen o1 o2 → obj_cut maxlen o2 o3 → obj_cut maxlen o1 o3.
Proof.
  destruct o1, o2, o3; simpl; try done; [|congruence].
  intros H12 H23. eapply Forall2_trans; [|done..].
  simpl. intros kv1 kv2 kv3 [E1 S1] [E2 S2]. split; [congruence|].
  by eapply slot_cut_trans.
Qed.

Lemma store_cut_refl maxlen h : store_cut maxlen h h.
Proof.
  apply Forall2_same_length_lookup_2; [done|].
  intros i o o' H1 H2. simplify_eq. apply obj_cut_refl.
Qed.

Lemma store_cut_trans maxlen h1 h2 h3 :
  store_cut maxlen h1 h2 → store_cut maxlen h2 h3 → store_cut maxlen h1 h3.
Proof.
  intros. eapply Forall2_trans; [|done..]. apply obj_cut_trans.
Qed.

Lemma store_cut_insert maxlen h l o o' :
  h !! l = Some o → obj_cut maxlen o o' → store_cut maxlen h (<[l := o']> h).
Proof.
  intros Hl Hcut. apply Forall2_same_length_lookup_2.
  { by rewrite length_insert. }
  intros i a b Ha Hb. destruct (decide (i = l)) as [->|Hne].
  - rewrite list_lookup_insert_eq in Hb by (by eapply lookup_lt_Some).
    by simplify_eq.
  - rewrite list_lookup_insert_ne in Hb by done. simplify_eq. apply obj_cut_refl.
Qed.

Lemma obj_cut_dict_set maxlen items k s s' :
  dict_get items k = Some (VStr s) → maxlen < len s → len s' ≤ maxlen →
  obj_cut maxlen (ODict items) (ODict (dict_set items k (VStr s'))).
Proof.
  intros Hget Hlong Hfit. simpl.
  induction items as [|[k0 v0] items IH]; simpl in *; [done|].
  case_decide.
  - simplify_eq. constructor.
    + split; [done|]. right. eauto 10.
    + apply (obj_cut_refl maxlen (ODict items)).
  - constructor; [|auto]. split; [done|by left].
Qed.

Lemma trim_store_cut (n : nat) maxlen h data h' :
  5 ≤ maxlen → trim n maxlen h data = Some h' → store_cut maxlen h h'.
Proof.
  intros Hmax. revert h data h'. induction n as [|n IH]; intros h data h'; [done|].
  rewrite trim_S. destruct data as [| | | | |l]; try (intros [= <-]; apply store_cut_refl).
  destruct (h !! l) as [[items|items]|] eqn:Hl; [| |done].
  - apply (for_each_preserves (λ h1, store_cut maxlen h h1)); [apply store_cut_refl|].
    intros h1 key h2 _ Hcut. unfold trim_dict_key.
    destruct (h1 !! l) as [[items1|]|] eqn:Hl1; try done.
    destruct (dict_get items1 key) as [v|] eqn:Hget; [|done].
    destruct (is_container v) eqn:Hc.
    { intros Hrec. eapply store_cut_trans; [done|]. by eapply IH. }
    destruct v as [| | | |s|]; try by intros [= <-].
    destruct (Z.ltb_spec maxlen (len s)); intros [= <-]; [|done].
    eapply store_cut_trans; [done|]. eapply store_cut_insert; [done|].
    eapply obj_cut_dict_set; [done..|].
    rewrite squeeze_long_length; lia.
  - destruct (for_each _ _ _) as [st|] eqn:Hrun; [|done]. intros [= <-].
    revert Hrun.
    apply (for_each_preserves (λ st1 : store * val, store_cut maxlen h st1.1));
      [apply store_cut_refl|].
    intros st1 i st2 _ Hcut. unfold trim_list_item.
    destruct (st1.1 !! l) as [[|items1]|] eqn:Hl1; try done.
    destruct (items1 !! i) as [item|] eqn:Hi; [|by intros [= <-]].
    destruct (is_container item) eqn:Hc.
    + destruct (trim n maxlen st1.1 item) as [h2|] eqn:Hrec; [|done].
      intros [= <-]. simpl. eapply store_cut_trans; [done|]. by eapply IH.
    + destruct item as [| | | |s|]; try by intros [= <-].
      destruct (maxlen <? len s); by intros [= <-].
Qed.

(** What fits stays fitting. *)
Lemma trimmed_cut maxlen h h' v :
  store_cut maxlen h h' → trimmed maxlen h v → trimmed maxlen h' v.
Proof.
  intros Hcut Ht l items' s Hreach Hl' Hin.
  apply (reach_store_ok maxlen h) in Hreach; [|by apply store_cut_ok].
  destruct (Forall2_lookup_r _ _ _ _ _ Hcut Hl') as (o & Hl & Ho).
  destruct o as [items|]; simpl in Ho; [|done].
  apply list_elem_of_lookup_1 in Hin as [i Hi].
  rewrite list_lookup_fmap in Hi.
  destruct (items' !! i) as [kv'|] eqn:Hkv'; [|done]. simpl in Hi.
  destruct (Forall2_lookup_r _ _ _ _ _ Ho Hkv') as (kv & Hkv & _ & Hslot).
  injection Hi as Hi. rewrite Hi in Hslot.
  destruct Hslot as [Heq|(s0 & s' & _ & _ & [= <-] & Hfit)]; [|done].
  apply (Ht l items s Hreach Hl).
  apply list_elem_of_lookup. exists i. rewrite list_lookup_fmap, Hkv. simpl.
  by rewrite Heq.
Qed.

Lemma dicts_wf_below_child h l o v :
  dicts_wf_below h (VRef l) → h !! l = Some o → v ∈ obj_values o →
  dicts_wf_below h v.
Proof. intros Hwf Hl Hin l' items Hreach. apply Hwf. by eapply reach_step. Qed.

Lemma dicts_wf_below_store_ok maxlen h h' v :
  store_ok maxlen h h' → dicts_wf_below h v → dicts_wf_below h' v.
Proof.
  intros Hok Hwf l items' Hreach Hl'.
  apply (reach_store_ok maxlen h) in Hreach; [|done].
  destruct (store_ok_lookup_r _ _ _ _ _ Hok Hl') as (o & Hl & Ho).
  destruct o as [items|]; simpl in Ho; [|done].
  destruct (store_ok_dict _ _ _ _ _ Hok Hl) as (items2 & Hl2 & Hkeys & _).
  simplify_eq. rewrite Hkeys. by eapply Hwf.
Qed.

Lemma trim_values_fit maxlen items s :
  5 ≤ maxlen → VStr s ∈ (trim_values maxlen items).*2 → len s ≤ maxlen.
Proof.
  intros Hmax Hin. unfold trim_values in Hin.
  rewrite <-list_fmap_compose in Hin.
  apply list_elem_of_fmap in Hin as ([k v] & Hs & _). simpl in Hs.
  destruct v as [| | | |s0|]; try done. simpl in Hs.
  destruct (Z.ltb_spec maxlen (len s0)); injection Hs as ->; [|done].
  rewrite squeeze_long_length; lia.
Qed.

Lemma trim_values_ref maxlen items l :
  VRef l ∈ (trim_values maxlen items).*2 → VRef l ∈ items.*2.
Proof.
  unfold trim_values. rewrite <-list_fmap_compose.
  intros ([k v] & Hv & Hin)%list_elem_of_fmap. simpl in Hv.
  apply list_elem_of_fmap. exists (k, v). split; [|done].
  destruct v as [| | | |s|]; try done. simpl in Hv. by destruct (maxlen <? len s).
Qed.

Section TrimTrimmed.

Variable maxlen : Z.
Hypothesis maxlen_room : 5 ≤ maxlen.
Variable n : nat.
Hypothesis trim_rec :
  ∀ h v, dicts_wf_below h v → bounded n h v →
    ∃ h', trim (S n) maxlen h v = Some h' ∧ trimmed maxlen h' v.

Lemma trim_dict_loop_trimmed h l items :
  h !! l = Some (ODict items) → NoDup items.*1 →
  bounded (S n) h (VRef l) → dicts_wf_below h (VRef l) →
  ∀ rest seen h1,
    items = seen ++ rest → store_cut maxlen h h1 →
    h1 !! l = Some (ODict (trim_values maxlen seen ++ rest)) →
    Forall (λ kv, trimmed maxlen h1 kv.2) seen →
    ∃ h', for_each (trim_dict_key (trim (S n) maxlen) maxlen l) rest.*1 h1 = Some h'
        ∧ h' !! l = Some (ODict (trim_values maxlen items))
        ∧ Forall (λ kv, trimmed maxlen h' kv.2) items.
Proof.
  intros Hl Hnodup Hb Hwf.
  induction rest as [|[k v] rest IH]; intros seen h1 Hsplit Hcut Hl1 Hseen.
  { exists h1. rewrite app_nil_r in *. by subst. }
  assert (Hk : k ∉ (trim_values maxlen seen).*1).
  { rewrite trim_values_keys. subst items.
    rewrite fmap_app, fmap_cons in Hnodup.
    apply NoDup_app in Hnodup as (_ & Hdisj & _).
    intros Hin. apply (Hdisj k Hin). left. }
  assert (Hnext : ∀ h2, store_cut maxlen h1 h2 →
            h2 !! l = Some (ODict (trim_values maxlen seen
                                     ++ (k, trim_value maxlen v) :: rest)) →
            trimmed maxlen h2 v →
            ∃ h', for_each (trim_dict_key (trim (S n) maxlen) maxlen l) rest.*1 h2 = Some h'
                ∧ h' !! l = Some (ODict (trim_values maxlen items))
                ∧ Forall (λ kv, trimmed maxlen h' kv.2) items).
  { intros h2 Hcut2 Hl2 Hv. apply (IH (seen ++ [(k, v)])).
    - by rewrite <-app_assoc.
    - by eapply store_cut_trans.
    - by rewrite trim_values_app, <-app_assoc.
    - apply Forall_app. split; [|by constructor].
      eapply Forall_impl; [done|]. intros kv. by apply trimmed_cut. }
  assert (Hok1 : store_ok maxlen h h1) by by apply store_cut_ok.
  assert (Hvitems : v ∈ items.*2).
  { subst items. rewrite fmap_app, fmap_cons. apply elem_of_app. right. left. }
  rewrite fmap_cons. cbn [for_each fst].
  unfold trim_dict_key at 1. rewrite Hl1, dict_get_middle by done.
  destruct (is_container v) eqn:Hc.
  - assert (bounded (S n) h1 (VRef l)) as Hb1 by by eapply bounded_store_ok.
    assert (v ∈ obj_values (ODict (trim_values maxlen seen ++ (k, v) :: rest))) as Hin.
    { simpl. rewrite fmap_app, fmap_cons. apply elem_of_app. right. left. }
    destruct (trim_rec h1 v) as (h2 & Hrun & Hv).
    { eapply dicts_wf_below_store_ok; [done|].
      by eapply (dicts_wf_below_child h l (ODict items)). }
    { by eapply bounded_children. }
    rewrite Hrun. apply Hnext; [by eapply trim_store_cut| |done].
    rewrite (trim_frame _ _ _ _ _ _ Hrun); [|by eapply bounded_acyclic].
    rewrite Hl1. by destruct v.
  - pose proof (trimmed_scalar maxlen) as Hscalar.
    destruct v as [| | | |s|]; try (apply Hnext; [apply store_cut_refl|done|by apply Hscalar]).
    unfold trim_value in Hnext.
    destruct (maxlen <? len s) eqn:Hlong;
      [|apply Hnext; [apply store_cut_refl|done|by apply Hscalar]].
    apply Z.ltb_lt in Hlong.
    apply Hnext; [| |by apply Hscalar].
    + eapply store_cut_insert; [done|].
      eapply obj_cut_dict_set; [by apply dict_get_middle|done|].
      rewrite squeeze_long_length; lia.
    + rewrite list_lookup_insert_eq by by eapply lookup_lt_Some.
      by rewrite dict_set_middle.
Qed.

Lemma trim_elements_trimmed h :
  ∀ rest h1,
    store_cut maxlen h h1 →
    Forall (λ v, dicts_wf_below h v ∧ bounded n h v) rest →
    ∃ h', for_each (trim_element (trim (S n) maxlen)) rest h1 = Some h'
        ∧ store_cut maxlen h1 h'
        ∧ Forall (trimmed maxlen h') rest.
Proof.
  induction rest as [|v rest IH]; intros h1 Hcut Hrest.
  { exists h1. by split; [|split; [apply store_cut_refl|]]. }
  apply Forall_cons in Hrest as [[Hwf Hb] Hrest].
  cbn [for_each]. unfold trim_element at 1.
  destruct (is_container v) eqn:Hc.
  - destruct (trim_rec h1 v) as (h2 & Hrun & Hv).
    { eapply dicts_wf_below_store_ok; [by apply store_cut_ok|done]. }
    { eapply bounded_store_ok; [by apply store_cut_ok|done]. }
    rewrite Hrun.
    pose proof (trim_store_cut _ _ _ _ _ maxlen_room Hrun) as Hcut2.
    destruct (IH h2) as (h' & Hloop & Hcut' & Hall);
      [by eapply store_cut_trans|done|].
    exists h'. split; [done|]. split; [by eapply store_cut_trans|].
    constructor; [by eapply trimmed_cut|done].
  - destruct (IH h1 Hcut Hrest) as (h' & Hloop & Hcut' & Hall).
    exists h'. split; [done|]. split; [done|].
    constructor; [by apply trimmed_scalar|done].
Qed.

End TrimTrimmed.

Lemma trim_trimmed (n : nat) (maxlen : Z) :
  5 ≤ maxlen →
  ∀ h v, dicts_wf_below h v → bounded n h v →
    ∃ h', trim (S n) maxlen h v = Some h' ∧ trimmed maxlen h' v.
Proof.
  intros Hmax. induction n as [|n IH]; intros h v Hwf Hb.
  { destruct v; try done; eexists; (split; [done|]); by apply trimmed_scalar. }
  destruct v as [| | | | |l];
    try (eexists; (split; [done|]); by apply trimmed_scalar).
  pose proof Hb as Hb'. simpl in Hb'.
  destruct (h !! l) as [[items|items]|] eqn:Hl; [| |done].
  - destruct (trim_dict_loop_trimmed maxlen Hmax n IH h l items Hl
                (Hwf l items (reach_here _ _) Hl) Hb Hwf items [] h)
      as (h' & Hrun & Hl' & Hall); [done|apply store_cut_refl|done|constructor|].
    exists h'. rewrite trim_S, Hl. split; [done|].
    intros l' items' s Hreach Hl'' Hin.
    apply reach_inv in Hreach as [->|(o & w & Ho & Hw & Hreach)].
    + simplify_eq. by eapply trim_values_fit.
    + simplify_eq. simpl in Hw.
      pose proof (reach_ref _ _ _ Hreach) as Hc.
      destruct w as [| | | | |x]; try done.
      apply trim_values_ref in Hw.
      apply list_elem_of_fmap in Hw as ([k w] & Hw & Hkv). simpl in Hw. subst w.
      rewrite Forall_forall in Hall.
      by apply (Hall _ Hkv l' items' s).
  - destruct (trim_elements_trimmed maxlen Hmax n IH h items h)
      as (h' & Hloop & Hcut & Hall); [apply store_cut_refl| |].
    { apply Forall_forall. intros w Hw. split.
      - by eapply (dicts_wf_below_child h l (OList items)).
      - by eapply bounded_children. }
    exists h'. rewrite trim_S, Hl.
    pose proof (trim_list_loop (trim (S n) maxlen) maxlen h l items
                  (trim_store_ok (S n) maxlen) Hl items [] h VNone eq_refl
                  (store_ok_refl _ _)) as Hsnap.
    change (length (@nil val)) with 0%nat in Hsnap. rewrite Hsnap.
    split; [done|].
    pose proof (store_ok_list _ _ _ _ _ (store_cut_ok _ _ _ Hcut) Hl) as Hl'.
    intros l' items' s Hreach Hl'' Hin.
    apply reach_inv in Hreach as [->|(o & w & Ho & Hw & Hreach)].
    + simplify_eq.
    + simplify_eq. simpl in Hw. rewrite Forall_forall in Hall.
      by apply (Hall _ Hw l' items' s).
Qed.

(** X20: with a threshold of at least 5, [trim] leaves no string value
    longer than [maxlen] in any dict at or below [data], however deep. *)
Theorem trim_no_long_value_left (n : nat) (maxlen : Z) (h : store) (data : val) :
  5 ≤ maxlen → dicts_wf_below h data → bounded n h data →
  ∃ h', trim (S n) maxlen h data = Some h'
      ∧ ∀ l items s, reach h' data l → h' !! l = Some (ODict items) →
          VStr s ∈ items.*2 → len s ≤ maxlen.
Proof. intros Hmax Hwf Hb. by apply trim_trimmed. Qed.

(** X21: with a threshold of at least 5, trimming a second time changes
    nothing. *)
Theorem trim_idempotent (n : nat) (maxlen : Z) (h : store) (data : val) :
  5 ≤ maxlen → dicts_wf_below h data → bounded n h data →
  ∃ h', trim (S n) maxlen h data = Some h'
      ∧ trim (S n) maxlen h' data = Some h'.
Proof.
  intros Hmax Hwf Hb.
  destruct (trim_trimmed n maxlen Hmax h data Hwf Hb) as (h' & Hrun & Ht).
  exists h'. split; [done|]. apply trim_nothing_to_do; [|done].
  eapply bounded_store_ok; [|done]. by eapply trim_store_ok.
Qed.

Lemma trim_no_long_value_left_witness :
  let long := VStr (lit "0123456789") in
  let h := [ODict [(lit "a", long); (lit "l", VRef 1%nat)];
            OList [long; VRef 2%nat];
            ODict [(lit "b", long)]] in
  5 ≤ 6 ∧ dicts_wf_below h (VRef 0%nat) ∧ bounded 3 h (VRef 0%nat) ∧
  ∃ h', trim 4 6 h (VRef 0%nat) = Some h'
      ∧ ∀ l items s, reach h' (VRef 0%nat) l → h' !! l = Some (ODict items) →
          VStr s ∈ items.*2 → len s ≤ 6.
Proof.
  intros long h.
  assert (Hwf : dicts_wf_below h (VRef 0%nat)).
  { intros [|[|[|l]]] items _ Hl; subst h; simpl in Hl; simplify_eq.
    - apply NoDup_cons_2; [|apply NoDup_singleton].
      intros Hin%list_elem_of_singleton. discriminate Hin.
    - apply NoDup_singleton. }
  assert (Hb : bounded 3 h (VRef 0%nat)) by (simpl; repeat constructor).
  split; [lia|]. split; [exact Hwf|]. split; [exact Hb|].
  apply (trim_no_long_value_left 3 6 h (VRef 0%nat)); [lia|exact Hwf|exact Hb].
Defined.

Lemma trim_idempotent_witness :
  let long := VStr (lit "0123456789") in
  let h := [ODict [(lit "a", long); (lit "l", VRef 1%nat)];
            OList [long; VRef 2%nat];
            ODict [(lit "b", long)]] in
  5 ≤ 6 ∧ dicts_wf_below h (VRef 0%nat) ∧ bounded 3 h (VRef 0%nat) ∧
  ∃ h', trim 4 6 h (VRef 0%nat) = Some h' ∧ trim 4 6 h' (VRef 0%nat) = Some h'.
Proof.
  intros long h.
  assert (Hwf : dicts_wf_below h (VRef 0%nat)).
  { intros [|[|[|l]]] items _ Hl; subst h; simpl in Hl; simplify_eq.
    - apply NoDup_cons_2; [|apply NoDup_singleton].
      intros Hin%list_elem_of_singleton. discriminate Hin.
    - apply NoDup_singleton. }
  assert (Hb : bounded 3 h (VRef 0%nat)) by (simpl; repeat constructor).
  split; [lia|]. split; [exact Hwf|]. split; [exact Hb|].
  apply (trim_idempotent 3 6 h (VRef 0%nat)); [lia|exact Hwf|exact Hb].
Defined.

(** ** abridge with a threshold of at least 5 *)

(** Every object of the copy is the copy of an original. *)
Lemma copy_reach_memo h0 (m : gmap loc loc) h1 v' l :
  copy_inv h0 [] m h1 → reach h1 v' l →
  (∃ v, renamed m v v') → ∃ x, m !! x = Some l.
Proof.
  intros Hinv. induction 1 as [y|y o' w l Hy Hin Hreach IH].
  - intros ([| | | | |x] & Hren); simpl in Hren; try done.
    destruct Hren as (y' & Hx & [= ->]). by exists x.
  - intros ([| | | | |x] & Hren); simpl in Hren; try done.
    destruct Hren as (y' & Hx & [= ->]).
    destruct (ci_done _ _ _ _ Hinv x y' Hx) as (o & o2 & Ho & Ho' & Hcopy);
      [apply not_elem_of_nil|].
    simplify_eq. apply IH.
    apply copy_of_values in Hcopy.
    apply list_elem_of_lookup_1 in Hin as [i Hi].
    destruct (Forall2_lookup_r _ _ _ _ _ Hcopy Hi) as (w0 & _ & Hw).
    by exists w0.
Qed.

Lemma copy_dicts_wf h0 (m : gmap loc loc) h1 v v' :
  copy_inv h0 [] m h1 → dicts_wf h0 → renamed m v v' →
  dicts_wf_below h1 v'.
Proof.
  intros Hinv Hwf Hren l ys Hreach Hl.
  destruct (copy_reach_memo h0 m h1 v' l Hinv Hreach) as [x Hx]; [by exists v|].
  destruct (ci_done _ _ _ _ Hinv x l Hx) as (o & o' & Ho & Ho' & Hcopy);
    [apply not_elem_of_nil|].
  simplify_eq. destruct o as [xs|]; simpl in Hcopy; [|done].
  assert (ys.*1 = xs.*1) as ->.
  { clear -Hcopy. induction Hcopy as [|???? [E _]]; [done|].
    rewrite !fmap_cons. congruence. }
  by eapply Hwf.
Qed.

(** X22: with a threshold of at least 5, the clone that [abridge] returns
    has no string value longer than [maxlen] in any of its dicts, however
    deep. *)
Theorem abridge_no_long_value_left (n : nat) (maxlen : Z) (h : store) (data : val) :
  5 ≤ maxlen → dicts_wf h → bounded n h data →
  ∃ h2 clone, abridge (S n) h data maxlen = Some (h2, clone)
    ∧ ∀ l items s, reach h2 clone l → h2 !! l = Some (ODict items) →
        VStr s ∈ items.*2 → len s ≤ maxlen.
Proof.
  intros Hmax Hwf Hb.
  destruct (deepcopy_spec h n Hwf [] ∅ h data (copy_inv_start h) Hb)
    as (m & h1 & clone & Hcopy & Hinv & _ & _ & Hren).
  pose proof (copy_bounded h m h1 Hinv n data clone Hren Hb) as Hb1.
  pose proof (copy_dicts_wf h m h1 data clone Hinv Hwf Hren) as Hwf1.
  destruct (trim_trimmed n maxlen Hmax h1 clone Hwf1 Hb1) as (h2 & Htrim & Ht).
  exists h2, clone. split; [by eapply abridge_steps|done].
Qed.

Lemma abridge_no_long_value_left_witness :
  let h := [ODict [(lit "a", VStr (lit "0123456789")); (lit "l", VRef 1%nat)];
            OList [VRef 2%nat];
            ODict [(lit "b", VStr (lit "0123456789"))]] in
  5 ≤ 6 ∧ dicts_wf h ∧ bounded 3 h (VRef 0%nat) ∧
  ∃ h2 clone, abridge 4 h (VRef 0%nat) 6 = Some (h2, clone)
    ∧ ∀ l items s, reach h2 clone l → h2 !! l = Some (ODict items) →
        VStr s ∈ items.*2 → len s ≤ 6.
Proof.
  intros h.
  assert (Hwf : dicts_wf h).
  { intros [|[|[|l]]] items Hl; subst h; simpl in Hl; simplify_eq.
    - apply NoDup_cons_2; [|apply NoDup_singleton].
      intros Hin%list_elem_of_singleton. discriminate Hin.
    - apply NoDup_singleton. }
  assert (Hb : bounded 3 h (VRef 0%nat)) by (simpl; repeat constructor).
  split; [lia|]. split; [exact Hwf|]. split; [exact Hb|].
  apply (abridge_no_long_value_left 3 6 h (VRef 0%nat)); [lia|exact Hwf|exact Hb].
Defined.

(** ** format_json on short strings *)

Lemma alloc_all_each {A} (f : A → store → store * val)
    (R : A → store → val → Prop) (items : list A) :
  Forall (λ a, ∀ h, h `prefix_of` (f a h).1
     ∧ ∀ h', (f a h).1 `prefix_of` h' → R a h' (f a h).2) items →
  ∀ h, h `prefix_of` (alloc_all f items h).1
     ∧ ∀ h', (alloc_all f items h).1 `prefix_of` h' →
         Forall2 (λ a v, R a h' v) items (alloc_all f items h).2.
Proof.
  induction 1 as [|a items Ha _ IH]; intros h; simpl.
  { split; [done|]. constructor. }
  destruct (Ha h) as [Hpre1 HR1].
  destruct (f a h) as [h1 v] eqn:Ef. cbn [fst snd] in *.
  destruct (IH h1) as [Hpre2 HR2].
  destruct (alloc_all f items h1) as [h2 vs] eqn:Eall. cbn [fst snd] in *.
  split; [by etrans|].
  intros h' Hpre. constructor; [apply HR1; by etrans|by apply HR2].
Qed.

Lemma alloc_str (t : json) (h : store) (s : str) :
  (alloc t h).2 = VStr s → t = JStr s.
Proof.
  destruct t as [| | | | |items|items]; simpl; try done.
  - by intros [= ->].
  - by destruct (alloc_all alloc items h).
  - by destruct (alloc_all _ items h).
Qed.

Lemma alloc_trimmed (maxlen : Z) (t : json) :
  json_short maxlen t →
  ∀ h h', (alloc t h).1 `prefix_of` h' → trimmed maxlen h' (alloc t h).2.
Proof.
  induction t as [|b|k|bits|s|items IH|items IH] using json_nested_ind;
    intros Hshort h h' Hpre; try by apply trimmed_scalar.
  - cbn [alloc] in *.
    destruct (alloc_all_each alloc (λ _ h' v, trimmed maxlen h' v) items) with (h := h)
      as [_ Hall].
    { simpl in Hshort. clear -IH Hshort.
      induction IH as [|t items Ht _ IHitems]; [constructor|].
      simpl in Hshort. destruct Hshort as [Hs Hrest].
      constructor; [|by apply IHitems].
      intros h. split; [apply alloc_correct|]. by apply Ht. }
    destruct (alloc_all alloc items h) as [h1 vs]. cbn [fst snd] in *.
    assert (h' !! length h1 = Some (OList vs)) as Hl.
    { eapply prefix_lookup_Some; [|done]. by rewrite list_lookup_middle. }
    specialize (Hall h' (prefix_app_l _ _ _ Hpre)).
    apply Forall2_right in Hall. rewrite Forall_forall in Hall.
    intros l' items' s Hreach Hl' Hin.
    apply reach_inv in Hreach as [->|(o & w & Ho & Hw & Hreach)]; simplify_eq.
    by apply (Hall _ Hw l' items' s).
  - cbn [alloc] in *.
    destruct (alloc_all_each (λ kv, alloc kv.2)
                (λ _ h' v, trimmed maxlen h' v ∧ ∀ s, v = VStr s → len s ≤ maxlen)
                items) with (h := h) as [_ Hall].
    { simpl in Hshort. clear -IH Hshort.
      induction IH as [|[k t] items Ht _ IHitems]; [constructor|].
      simpl in Hshort. destruct Hshort as (Hstr & Hs & Hrest).
      constructor; [|by apply IHitems].
      intros h. split; [apply alloc_correct|]. simpl.
      intros h' Hpre. split; [by apply Ht|].
      intros s Hv. apply alloc_str in Hv. by subst t. }
    destruct (alloc_all (λ kv, alloc kv.2) items h) as [h1 vs]. cbn [fst snd] in *.
    assert (h' !! length h1 = Some (ODict (zip items.*1 vs))) as Hl.
    { eapply prefix_lookup_Some; [|done]. by rewrite list_lookup_middle. }
    specialize (Hall h' (prefix_app_l _ _ _ Hpre)).
    assert ((zip items.*1 vs).*2 = vs) as Hvs.
    { apply snd_zip. rewrite length_fmap. apply Forall2_length in Hall. lia. }
    apply Forall2_right in Hall. rewrite Forall_forall in Hall.
    intros l' items' s Hreach Hl' Hin.
    apply reach_inv in Hreach as [->|(o & w & Ho & Hw & Hreach)]; simplify_eq.
    + rewrite Hvs in Hin. by apply (Hall _ Hin).
    + simpl in Hw. rewrite Hvs in Hw.
      destruct (Hall _ Hw) as [Ht _]. by apply (Ht l' items' s).
Qed.

Section MoreJsonFacts.

Variable json_loads : str → result json.
Variable json_dumps : json → str.

(** X23: when no string value of an object of the document is longer than
    100, [format_json] returns the dump of the document as it was parsed,
    whatever [maxlen] is. *)
Theorem format_json_short_unchanged (fuel : nat) (text : str) (parsed : json)
    (maxlen : Z) :
  json_loads text = Ok parsed → (depth parsed < fuel)%nat →
  json_short 100 parsed →
  format_json json_loads json_dumps fuel text maxlen = Ok (json_dumps parsed).
Proof.
  intros Hparse Hfuel Hshort. unfold format_json. rewrite Hparse.
  cbn [bind_result].
  destruct (alloc_correct parsed []) as [_ Hread].
  pose proof (alloc_trimmed 100 parsed Hshort []) as Htrimmed.
  destruct (alloc parsed []) as [h data]. cbn [fst snd] in *.
  destruct fuel as [|n]; [lia|].
  destruct (Hread h n) as [Hr Hb]; [done|lia|].
  rewrite (trim_nothing_to_do n 100 h data Hb (Htrimmed h (reflexivity _))).
  destruct (maxlen =? 0); cbn [bind_result budget]; by rewrite Hr.
Qed.

End MoreJsonFacts.

Lemma format_json_short_unchanged_witness :
  let doc := JDict [(lit "id", JStr (lit "ab12")); (lit "tags", JList [JInt 1])] in
  let json_loads := λ _ : str, Ok doc in
  let json_dumps := λ t, match t with JDict ((_, JStr s) :: _) => s | _ => [] end in
  json_loads [] = Ok doc ∧ (depth doc < 3)%nat ∧ json_short 100 doc ∧
  format_json json_loads json_dumps 3 [] 50 = Ok (lit "ab12").
Proof.
  intros doc json_loads json_dumps.
  assert (Hfuel : (depth doc < 3)%nat) by (simpl; lia).
  assert (Hshort : json_short 100 doc) by (simpl; repeat split; try done; vm_compute; discriminate).
  split; [reflexivity|]. split; [exact Hfuel|]. split; [exact Hshort|].
  apply (format_json_short_unchanged json_loads json_dumps 3 [] doc 50 eq_refl Hfuel Hshort).
Defined.
